(** * Ingestion pipeline of photobrain's image-processing crate

    A shallow embedding of [packages/image-processing/src/batch.rs]
    (format classification, per-item processing, the batch scheduler),
    [raw.rs] (RAW decode, histograms, CDFs, tone curves) and the
    orientation normaliser ([orientation.rs] and its copy in [batch.rs]).

    Modelling conventions
    - Rust [String]/[&str] are [string] (byte strings).  Case mapping is the
      ASCII one: every extension the crate recognises is ASCII, and no
      non-ASCII character lower-cases into one of their letters, so the
      classification is the one of [str::to_lowercase].
    - [f64] is Rocq's primitive binary64 [float]: comparisons, subtraction,
      [abs], multiplication and division are the IEEE-754 operations the
      Rust code executes.
    - The file system and the external collaborators (image decoder,
      libraw via rsraw, EXIF reader, perceptual hash, CLIP model,
      thumbnail writer) are the fields of an environment record [Env]: each
      item's processing reads it and never changes what another item reads. *)

From Stdlib Require Import String Ascii List ZArith NArith Bool Lia.
From Stdlib Require Import PrimFloat SpecFloat FloatOps FloatAxioms.
From Stdlib Require Import Permutation.
Import ListNotations.
Open Scope string_scope.

(** ** Rust [Result] *)

Inductive result (A E : Type) : Type :=
| Ok (a : A)
| Err (e : E).
Arguments Ok {A E} a.
Arguments Err {A E} e.

(** ** String helpers ([str] methods) *)

Module Str.

Definition ascii_lower (c : ascii) : ascii :=
  let n := nat_of_ascii c in
  if (65 <=? n)%nat && (n <=? 90)%nat then ascii_of_nat (n + 32) else c.

Definition ascii_upper (c : ascii) : ascii :=
  let n := nat_of_ascii c in
  if (97 <=? n)%nat && (n <=? 122)%nat then ascii_of_nat (n - 32) else c.

(** [str::to_lowercase] *)
Fixpoint to_lowercase (s : string) : string :=
  match s with
  | EmptyString => EmptyString
  | String c s' => String (ascii_lower c) (to_lowercase s')
  end.

(** [str::to_uppercase] *)
Fixpoint to_uppercase (s : string) : string :=
  match s with
  | EmptyString => EmptyString
  | String c s' => String (ascii_upper c) (to_uppercase s')
  end.

(** [str::split(sep)]: always at least one piece. *)
Fixpoint split_on (sep : ascii) (s : string) : list string :=
  match s with
  | EmptyString => [EmptyString]
  | String c s' =>
      if Ascii.eqb c sep then EmptyString :: split_on sep s'
      else match split_on sep s' with
           | x :: xs => String c x :: xs
           | [] => [String c EmptyString]
           end
  end.

(** [str::ends_with] *)
Definition ends_with (s suffix : string) : bool :=
  (String.length suffix <=? String.length s)%nat &&
  String.eqb (substring (String.length s - String.length suffix) (String.length suffix) s) suffix.

(** [<[&str]>::contains] *)
Definition contains (xs : list string) (x : string) : bool :=
  existsb (String.eqb x) xs.

End Str.

(** ** [std::path::Path] on Unix *)

Module RPath.

(** [Path::file_name]: the last component if it is a normal one.  Empty
    components and [.] components are dropped by [Path::components] (a
    leading [.] is [CurDir], not [Normal], so it is dropped here as well);
    [..] is [ParentDir]. *)
Definition file_name (p : string) : option string :=
  match rev (filter (fun c => negb (String.eqb c "") && negb (String.eqb c "."))
                    (Str.split_on "/" p)) with
  | c :: _ => if String.eqb c ".." then None else Some c
  | [] => None
  end.

(** [rsplit_file_at_dot] followed by [before.and(after)], i.e.
    [Path::extension]: the text after the last dot, unless the name has no
    dot, is [..], or its only dot is the first character. *)
Definition extension_of_name (name : string) : option string :=
  if String.eqb name ".." then None
  else match rev (Str.split_on "." name) with
       | after :: ((_ :: _) as before_rev) =>
           if String.eqb (String.concat "." (rev before_rev)) "" then None
           else Some after
       | _ => None
       end.

Definition extension (p : string) : option string :=
  match file_name p with
  | Some name => extension_of_name name
  | None => None
  end.

End RPath.

(** ** Format classification ([batch.rs]) *)

Definition RAW_EXTENSIONS : list string :=
  [".cr2"; ".cr3"; ".nef"; ".arw"; ".dng"; ".raf"; ".orf"; ".rw2"; ".pef";
   ".srw"; ".x3f"; ".3fr"; ".iiq"; ".rwl"].

Definition STANDARD_EXTENSIONS : list string :=
  [".jpg"; ".jpeg"; ".png"; ".gif"; ".webp"; ".bmp"; ".tiff"; ".tif"].

Definition HEIF_EXTENSIONS : list string := [".heic"; ".heif"].

Inductive FileType := Raw | Heif | Standard | Unsupported.

Definition FileType_eqb (a b : FileType) : bool :=
  match a, b with
  | Raw, Raw | Heif, Heif | Standard, Standard | Unsupported, Unsupported => true
  | _, _ => false
  end.

Definition detect_file_type (file_path : string) : FileType :=
  let ext := match RPath.extension file_path with
             | Some e => "." ++ Str.to_lowercase e
             | None => ""
             end in
  if Str.contains RAW_EXTENSIONS ext then Raw
  else if Str.contains HEIF_EXTENSIONS ext then Heif
  else if Str.contains STANDARD_EXTENSIONS ext then Standard
  else Unsupported.

Definition get_raw_format (file_path : string) : option string :=
  option_map Str.to_uppercase (RPath.extension file_path).

Definition is_supported_image (file_path : string) : bool :=
  negb (FileType_eqb (detect_file_type file_path) Unsupported).

(** [heif.rs]: [is_heif_file] *)
Definition is_heif_file (file_path : string) : bool :=
  let lower := Str.to_lowercase file_path in
  Str.ends_with lower ".heic" || Str.ends_with lower ".heif".

(** ** Rasters ([image::ImageBuffer]) and orientation

    An [ImageBuffer] is its width, its height and its pixels in row-major
    order; the buffers the pipeline builds hold exactly [width * height]
    pixels ([wf]).  [image::imageops] builds a rotated or flipped image as a
    fresh zero-filled buffer ([ImageBuffer::new]) into which every source
    pixel is put once; [generate] lists the resulting pixels row by row. *)

Module Img.

Record image (P : Type) : Type := mk_image {
  width : nat;
  height : nat;
  pixels : list P
}.
Arguments mk_image {P} width height pixels.
Arguments width {P} _.
Arguments height {P} _.
Arguments pixels {P} _.

Section Ops.
Context {P : Type} (zero : P).

Definition wf (img : image P) : Prop :=
  length (pixels img) = (width img * height img)%nat.

(** [GenericImageView::get_pixel(x, y)]; the zero pixel is never read
    in range on a [wf] image. *)
Definition get_pixel (img : image P) (x y : nat) : P :=
  nth (y * width img + x) (pixels img) zero.

Definition generate (w h : nat) (f : nat -> nat -> P) : image P :=
  mk_image w h (flat_map (fun y => map (fun x => f x y) (seq 0 w)) (seq 0 h)).

(** [imageops::rotate90]: [put_pixel(h - y - 1, x, get_pixel(x, y))] into
    an [h x w] buffer. *)
Definition rotate90 (img : image P) : image P :=
  let w := width img in let h := height img in
  generate h w (fun x y => get_pixel img y (h - 1 - x)).

(** [imageops::rotate180]: [put_pixel(w - x - 1, h - y - 1, ...)]. *)
Definition rotate180 (img : image P) : image P :=
  let w := width img in let h := height img in
  generate w h (fun x y => get_pixel img (w - 1 - x) (h - 1 - y)).

(** [imageops::rotate270]: [put_pixel(y, w - x - 1, ...)] into an [h x w]
    buffer. *)
Definition rotate270 (img : image P) : image P :=
  let w := width img in let h := height img in
  generate h w (fun x y => get_pixel img (w - 1 - y) x).

(** [imageops::flip_horizontal]: [put_pixel(w - x - 1, y, ...)]. *)
Definition fliph (img : image P) : image P :=
  let w := width img in let h := height img in
  generate w h (fun x y => get_pixel img (w - 1 - x) y).

(** [imageops::flip_vertical]: [put_pixel(x, h - y - 1, ...)]. *)
Definition flipv (img : image P) : image P :=
  let w := width img in let h := height img in
  generate w h (fun x y => get_pixel img x (h - 1 - y)).

End Ops.
End Img.

Import Img.

(** [apply_orientation] of [orientation.rs] (identical to the private copy
    in [batch.rs] and to the inline match in [process_raw_complete_internal]).
    The EXIF orientation is an [Option<u32>]. *)
Definition apply_orientation {P : Type} (zero : P) (img : image P)
    (orientation : option N) : image P :=
  match orientation with
  | Some o =>
      if N.eqb o 2 then fliph zero img
      else if N.eqb o 3 then rotate180 zero img
      else if N.eqb o 4 then flipv zero img
      else if N.eqb o 5 then fliph zero (rotate270 zero img)
      else if N.eqb o 6 then rotate90 zero img
      else if N.eqb o 7 then fliph zero (rotate90 zero img)
      else if N.eqb o 8 then rotate270 zero img
      else img
  | None => img
  end.

(** ** Histogram matching ([raw.rs]) *)

Module Tone.

(** An [Rgb<u8>] pixel. *)
Definition rgb : Type := (Byte.byte * Byte.byte * Byte.byte)%type.

Definition ch0 (p : rgb) : Byte.byte := fst (fst p).
Definition ch1 (p : rgb) : Byte.byte := snd (fst p).
Definition ch2 (p : rgb) : Byte.byte := snd p.

Definition zero_rgb : rgb := (Byte.x00, Byte.x00, Byte.x00).

(** [u64] arithmetic wraps modulo 2^64. *)
Definition u64_wrap (n : N) : N := N.modulo n (2 ^ 64).

(** A [[u64; 256]] histogram. *)
Definition hist : Type := list N.

Definition empty_hist : hist := repeat 0%N 256.

(** [a[i] = f(a[i])] on a Rust array; [i] is always in range here. *)
Fixpoint list_update {A : Type} (l : list A) (i : nat) (f : A -> A) : list A :=
  match l, i with
  | [], _ => []
  | x :: xs, O => f x :: xs
  | x :: xs, S i' => x :: list_update xs i' f
  end.

(** [histograms[c][v as usize] += 1] *)
Definition bump (h : hist) (v : Byte.byte) : hist :=
  list_update h (Byte.to_nat v) (fun c => u64_wrap (c + 1)).

(** The sampling stride of [compute_rgb_histograms_sampled]. *)
Definition sample_step (total_pixels : nat) : nat :=
  if (500000 <? total_pixels)%nat then Nat.max (total_pixels / 500000) 1 else 1.

(** The [for (i, pixel) in img.pixels().enumerate()] loop. *)
Fixpoint hist_loop (step i : nat) (px : list rgb) (hs : hist * hist * hist)
    : hist * hist * hist :=
  match px with
  | [] => hs
  | p :: rest =>
      let '(hr, hg, hb) := hs in
      let hs' := if (i mod step =? 0)%nat
                 then (bump hr (ch0 p), bump hg (ch1 p), bump hb (ch2 p))
                 else hs in
      hist_loop step (S i) rest hs'
  end.

(** [compute_rgb_histograms_sampled]: [img.pixels()] yields the first
    [width * height] pixels of the buffer. *)
Definition compute_rgb_histograms_sampled (img : image rgb) : hist * hist * hist :=
  let total_pixels := (width img * height img)%nat in
  let step := sample_step total_pixels in
  hist_loop step 0 (firstn total_pixels (pixels img))
            (empty_hist, empty_hist, empty_hist).

(** [n as f64] for an unsigned integer: round to nearest, ties to even. *)
Definition u64_to_f64 (n : N) : float :=
  SF2Prim (binary_normalize prec emax (Z.of_N n) 0 false).

(** [histogram.iter().sum()] *)
Definition hist_sum (h : hist) : N :=
  fold_left (fun acc c => u64_wrap (acc + c)) h 0%N.

(** The [cumsum] loop of [histogram_to_cdf]. *)
Fixpoint cdf_loop (inv_total : float) (cumsum : N) (h : hist) : list float :=
  match h with
  | [] => []
  | count :: rest =>
      let cumsum' := u64_wrap (cumsum + count) in
      (u64_to_f64 cumsum' * inv_total)%float :: cdf_loop inv_total cumsum' rest
  end.

Definition histogram_to_cdf (h : hist) : list float :=
  let total := hist_sum h in
  if N.eqb total 0 then repeat 0%float 256
  else cdf_loop (1 / u64_to_f64 total)%float 0 h.

(** [cdf[i]] *)
Definition at_ (c : list float) (i : nat) : float := nth i c 0%float.

(** The binary search of [build_tone_curve]: [while low < high].  Every
    iteration shrinks [high - low], so [fuel] iterations with
    [fuel > high - low] run the loop to its end. *)
Fixpoint lower_bound (fuel : nat) (target : list float) (sp : float)
    (low high : nat) : nat :=
  match fuel with
  | O => low
  | S fuel' =>
      if (low <? high)%nat then
        let mid := ((low + high) / 2)%nat in
        if (at_ target mid <? sp)%float
        then lower_bound fuel' target sp (mid + 1) high
        else lower_bound fuel' target sp low mid
      else low
  end.

(** [curve[i]] of [build_tone_curve], as a [u8] (a value below 256). *)
Definition tone_entry (source target : list float) (i : nat) : nat :=
  let sp := at_ source i in
  let low := lower_bound 256 target sp 0 255 in
  if (0 <? low)%nat &&
     (abs (sp - at_ target (low - 1)) <? abs (sp - at_ target low))%float
  then (low - 1)%nat
  else low.

Definition build_tone_curve (source target : list float) : list nat :=
  map (tone_entry source target) (seq 0 256).

(** [apply_rgb_curves_inplace] *)
Definition apply_rgb_curves (img : image rgb) (curves : list nat * list nat * list nat)
    : image rgb :=
  let '(cr, cg, cb) := curves in
  let f c v := Byte.of_nat (nth (Byte.to_nat v) c 0%nat) in
  mk_image (width img) (height img)
    (map (fun p => match f cr (ch0 p), f cg (ch1 p), f cb (ch2 p) with
                   | Some r, Some g, Some b => (r, g, b)
                   | _, _, _ => p
                   end) (pixels img)).

(** The matching step: per-channel CDFs of both rasters, one curve per
    channel, applied to the full raster. *)
Definition histogram_match (full preview : image rgb) : image rgb :=
  let '(sr, sg, sb) := compute_rgb_histograms_sampled full in
  let '(tr, tg, tb) := compute_rgb_histograms_sampled preview in
  apply_rgb_curves full
    (build_tone_curve (histogram_to_cdf sr) (histogram_to_cdf tr),
     build_tone_curve (histogram_to_cdf sg) (histogram_to_cdf tg),
     build_tone_curve (histogram_to_cdf sb) (histogram_to_cdf tb)).

End Tone.

(** ** The per-item pipeline ([batch.rs], [raw.rs]) *)

Module Pipeline.

Import Tone.

(** A [DynamicImage]: one list of channel bytes per pixel.  Its zero pixel
    stands for the zero-filled buffer of [ImageBuffer::new] and is never
    read on a well-formed image. *)
Definition dyn_pixel : Type := list Byte.byte.
Definition DynamicImage : Type := image dyn_pixel.
Definition dyn_zero : dyn_pixel := [].

(** [DynamicImage::ImageRgb8] *)
Definition image_rgb8 (img : image rgb) : DynamicImage :=
  mk_image (width img) (height img)
    (map (fun p => [ch0 p; ch1 p; ch2 p]) (pixels img)).

(** [exif::ExifData]: the pipeline reads only its orientation tag; the
    other fields are carried into the record unchanged. *)
Record ExifData : Type := mkExif {
  exif_orientation : option N
}.

(** [fs::Metadata]: [len()], and [created()] / [modified()] as whole
    milliseconds since the Unix epoch ([None] when the platform has no such
    time or it lies before the epoch). *)
Record Metadata : Type := mkMetadata {
  md_len : N;
  md_created_ms : option N;
  md_modified_ms : option N
}.

(** An rsraw thumbnail: format, dimensions, encoded bytes. *)
Record Thumb : Type := mkThumb {
  th_is_jpeg : bool;
  th_width : N;
  th_height : N;
  th_data : list Byte.byte
}.

(** The file system and the external collaborators.  A [RawImage] is
    identified with the bytes it was opened from. *)
Record Env : Type := mkEnv {
  fs_metadata : string -> result Metadata string;
  fs_read : string -> result (list Byte.byte) string;
  extract_exif_internal : string -> option ExifData;
  decode_heif : string -> result DynamicImage string;
  (** [ImageReader::open] with the guessed format's [Debug] name *)
  reader_open : string -> result (option string) string;
  reader_decode : string -> result DynamicImage string;
  raw_open : list Byte.byte -> result unit string;
  raw_extract_thumbs : list Byte.byte -> result (list Thumb) string;
  raw_unpack : list Byte.byte -> result unit string;
  (** [raw.process::<BIT_DEPTH_8>()]: width, height and RGB bytes *)
  raw_process : list Byte.byte -> result (N * N * list Byte.byte) string;
  load_from_memory : list Byte.byte -> result DynamicImage string;
  into_rgb8 : DynamicImage -> image rgb;
  generate_phash_from_image : DynamicImage -> string;
  generate_clip_embedding_from_image : DynamicImage -> option (list float);
  generate_all_thumbnails_internal : DynamicImage -> string -> string -> result unit string
}.

(** [PhotoProcessingResult] *)
Record PhotoProcessingResult : Type := mkPPR {
  path : string;
  name : string;
  size : Z;
  created_at : float;
  modified_at : float;
  p_width : option N;
  p_height : option N;
  mime_type : option string;
  phash : option string;
  clip_embedding : option (list float);
  exif : option ExifData;
  is_raw : bool;
  raw_format : option string;
  raw_status : option string;
  raw_error : option string;
  success : bool;
  error : option string
}.

(** [RawCompleteResult] (its wall-clock [processing_time_ms] is left out). *)
Record RawCompleteResult : Type := mkRCR {
  r_width : N;
  r_height : N;
  r_phash : option string;
  r_clip_embedding : option (list float);
  r_exif : option ExifData;
  histogram_matched : bool;
  r_success : bool;
  r_error : option string
}.

Definition ok_opt {A E : Type} (r : result A E) : option A :=
  match r with Ok a => Some a | Err _ => None end.

(** [len() as i64] *)
Definition to_i64 (n : N) : Z :=
  let z := (Z.of_N n mod 2 ^ 64)%Z in
  if (z <? 2 ^ 63)%Z then z else (z - 2 ^ 64)%Z.

(** [.map(|d| d.as_millis() as f64).unwrap_or(0.0)] *)
Definition millis_f64 (ms : option N) : float :=
  match ms with Some m => u64_to_f64 m | None => 0%float end.

(** [path.file_name().unwrap_or_default().to_string_lossy()] *)
Definition file_name_or_default (file_path : string) : string :=
  match RPath.file_name file_path with Some n => n | None => "" end.

(** [Iterator::max_by_key]: the last of the maximal elements. *)
Definition max_by_key {A : Type} (key : A -> N) (l : list A) : option A :=
  fold_left (fun acc x => match acc with
                          | None => Some x
                          | Some m => if (key m <=? key x)%N then Some x else Some m
                          end) l None.

(** Three bytes per pixel. *)
Fixpoint chunks3 (data : list Byte.byte) : list rgb :=
  match data with
  | r :: g :: b :: rest => (r, g, b) :: chunks3 rest
  | _ => []
  end.

(** [ImageBuffer::<Rgb<u8>, _>::from_raw]: [None] when the buffer is
    shorter than [width * height * 3] (a product that must fit a [usize]). *)
Definition from_raw (w h : N) (data : list Byte.byte) : option (image rgb) :=
  let needed := (w * h * 3)%N in
  if (needed <? 2 ^ 64)%N && (needed <=? N.of_nat (length data))%N
  then Some (mk_image (N.to_nat w) (N.to_nat h) (chunks3 data))
  else None.

Section WithEnv.
Variable env : Env.

(** [extract_preview_with_jpeg] *)
Definition extract_preview_with_jpeg (raw : list Byte.byte)
    : option (image rgb * list Byte.byte) :=
  match raw_extract_thumbs env raw with
  | Err _ => None
  | Ok thumbs =>
      match max_by_key (fun t => (th_width t * th_height t)%N)
                       (filter th_is_jpeg thumbs) with
      | None => None
      | Some jpeg_thumb =>
          let jpeg_bytes := th_data jpeg_thumb in
          match load_from_memory env jpeg_bytes with
          | Ok img => Some (into_rgb8 env img, jpeg_bytes)
          | Err _ => None
          end
      end
  end.

(** The tone-matching decision of [process_raw_complete_internal]. *)
Definition tone_match_decision (preview_rgb : option (image rgb)) (rgb_img : image rgb)
    : bool * image rgb :=
  match preview_rgb with
  | Some preview =>
      let min_dim := Nat.min (width preview) (height preview) in
      if (800 <=? min_dim)%nat then (true, histogram_match rgb_img preview)
      else (false, rgb_img)
  | None => (false, rgb_img)
  end.

(** [process_raw_complete_internal] *)
Definition process_raw_complete_internal (file_path relative_path thumbnails_dir : string)
    : RawCompleteResult :=
  let exif := extract_exif_internal env file_path in
  let orientation := match exif with Some e => exif_orientation e | None => None end in
  let fail msg := mkRCR 0 0 None None exif false false (Some msg) in
  (* Phase 1: preview for histogram matching and CLIP *)
  match fs_read env file_path with
  | Err e => fail ("Failed to read file: " ++ e)
  | Ok file_data =>
  match raw_open env file_data with
  | Err e => fail ("Failed to open RAW: " ++ e)
  | Ok _ =>
  let '(preview_rgb, preview_for_clip) :=
    match extract_preview_with_jpeg file_data with
    | Some (rgb_p, jpeg_bytes) => (Some rgb_p, ok_opt (load_from_memory env jpeg_bytes))
    | None => (None, None)
    end in
  (* Phase 2: read the file again and process the RAW *)
  match fs_read env file_path with
  | Err e => fail ("Failed to read file for processing: " ++ e)
  | Ok file_data2 =>
  match raw_open env file_data2 with
  | Err e => fail ("Failed to open RAW for processing: " ++ e)
  | Ok _ =>
  match raw_unpack env file_data2 with
  | Err e => fail ("Failed to unpack RAW: " ++ e)
  | Ok _ =>
  match raw_process env file_data2 with
  | Err e => fail ("Failed to process RAW: " ++ e)
  | Ok (w, h, data) =>
  match from_raw w h data with
  | None => fail "Failed to create image buffer"
  | Some rgb_img =>
      let '(matched, rgb_img') := tone_match_decision preview_rgb rgb_img in
      let dynamic_img := apply_orientation dyn_zero (image_rgb8 rgb_img') orientation in
      let phash := Some (generate_phash_from_image env dynamic_img) in
      (* thumbnail failures are only logged *)
      let _ := generate_all_thumbnails_internal env dynamic_img relative_path thumbnails_dir in
      let clip := match preview_for_clip with
                  | Some preview_img => generate_clip_embedding_from_image env preview_img
                  | None => generate_clip_embedding_from_image env dynamic_img
                  end in
      mkRCR w h phash clip exif matched true None
  end end end end end end end.

(** [process_standard_image] *)
Definition process_standard_image (file_path relative_path thumbnails_dir : string)
    : PhotoProcessingResult :=
  match fs_metadata env file_path with
  | Err e =>
      mkPPR relative_path (file_name_or_default file_path) 0 0%float 0%float
        None None None None None None false None None None false
        (Some ("Failed to read file metadata: " ++ e))
  | Ok metadata =>
      let name := file_name_or_default file_path in
      let size := to_i64 (md_len metadata) in
      let created_at := millis_f64 (md_created_ms metadata) in
      let modified_at := millis_f64 (md_modified_ms metadata) in
      let exif := extract_exif_internal env file_path in
      let orientation := match exif with Some e => exif_orientation e | None => None end in
      let decode_result :=
        if is_heif_file file_path then
          match decode_heif env file_path with
          | Ok img => Ok (img, Some "image/heic")
          | Err e => Err e
          end
        else
          match reader_open env file_path with
          | Ok format =>
              match reader_decode env file_path with
              | Ok img => Ok (img, option_map (fun f => "image/" ++ Str.to_lowercase f) format)
              | Err e => Err e
              end
          | Err e => Err e
          end in
      match decode_result with
      | Ok (img, mime) =>
          let img := apply_orientation dyn_zero img orientation in
          let phash := Some (generate_phash_from_image env img) in
          let _ := generate_all_thumbnails_internal env img relative_path thumbnails_dir in
          let clip := generate_clip_embedding_from_image env img in
          mkPPR relative_path name size created_at modified_at
            (Some (N.of_nat (width img))) (Some (N.of_nat (height img))) mime phash clip exif
            false None None None true None
      | Err e =>
          mkPPR relative_path name size created_at modified_at None None None None None
            exif false None None None false (Some ("Failed to decode image: " ++ e))
      end
  end.

(** [process_raw_file] *)
Definition process_raw_file (file_path relative_path thumbnails_dir : string)
    : PhotoProcessingResult :=
  let raw_format := get_raw_format file_path in
  let mime := option_map (fun f => "image/x-" ++ Str.to_lowercase f) raw_format in
  match fs_metadata env file_path with
  | Err e =>
      mkPPR relative_path (file_name_or_default file_path) 0 0%float 0%float
        None None mime None None None true raw_format (Some "failed")
        (Some ("Failed to read file metadata: " ++ e)) false
        (Some ("Failed to read file metadata: " ++ e))
  | Ok metadata =>
      let name := file_name_or_default file_path in
      let size := to_i64 (md_len metadata) in
      let created_at := millis_f64 (md_created_ms metadata) in
      let modified_at := millis_f64 (md_modified_ms metadata) in
      let raw_result := process_raw_complete_internal file_path relative_path thumbnails_dir in
      mkPPR relative_path name size created_at modified_at
        (if r_success raw_result then Some (r_width raw_result) else None)
        (if r_success raw_result then Some (r_height raw_result) else None)
        mime (r_phash raw_result) (r_clip_embedding raw_result) (r_exif raw_result)
        true raw_format
        (Some (if r_success raw_result then "converted" else "failed"))
        (r_error raw_result) (r_success raw_result) (r_error raw_result)
  end.

(** [process_photo_internal] *)
Definition process_photo_internal (file_path relative_path thumbnails_dir : string)
    : PhotoProcessingResult :=
  match detect_file_type file_path with
  | Raw => process_raw_file file_path relative_path thumbnails_dir
  | Heif | Standard => process_standard_image file_path relative_path thumbnails_dir
  | Unsupported =>
      mkPPR relative_path (file_name_or_default file_path) 0 0%float 0%float
        None None None None None None false None None None false
        (Some "Unsupported file type")
  end.

(** [process_photos_batch]: [file_paths.par_iter().enumerate().map(..).collect()]
    on the bounded pool; rayon's indexed [collect] puts item [i]'s result
    at position [i]. *)
Definition process_photos_batch (file_paths relative_paths : list string)
    (thumbnails_dir : string) : list PhotoProcessingResult :=
  map (fun '(i, p) =>
         let rel_path := match nth_error relative_paths i with
                         | Some r => r
                         | None => ""
                         end in
         process_photo_internal p rel_path thumbnails_dir)
      (combine (seq 0 (length file_paths)) file_paths).

End WithEnv.
End Pipeline.

(** ** A concrete environment for the witnesses *)

Module Fixtures.
Import Pipeline.

Definition px (b : Byte.byte) : dyn_pixel := [b; b; b].

Definition env0 : Env :=
  mkEnv
    (fun _ => Ok (mkMetadata 42 (Some 1000%N) (Some 2000%N)))
    (fun _ => Ok [Byte.x01])
    (fun _ => Some (mkExif (Some 6%N)))
    (fun _ => Err "no HEIF decoder")
    (fun _ => Ok (Some "Jpeg"))
    (fun _ => Ok (mk_image 2 1 [px Byte.x00; px Byte.x01]))
    (fun _ => Ok tt)
    (fun _ => Ok [])
    (fun _ => Ok tt)
    (fun _ => Ok (2%N, 1%N, [Byte.x00; Byte.x00; Byte.x00; Byte.x01; Byte.x01; Byte.x01]))
    (fun _ => Err "not a JPEG")
    (fun _ => mk_image 0 0 [])
    (fun _ => "0000000000000000")
    (fun _ => None)
    (fun _ _ _ => Ok tt).

(** A RAW file with an embedded 800 x 800 JPEG preview. *)
Definition env_raw800 : Env :=
  mkEnv
    (fun _ => Ok (mkMetadata 42 (Some 1000%N) (Some 2000%N)))
    (fun _ => Ok [Byte.x01])
    (fun _ => None)
    (fun _ => Err "no HEIF decoder")
    (fun _ => Err "not a standard image")
    (fun _ => Err "not a standard image")
    (fun _ => Ok tt)
    (fun _ => Ok [mkThumb true 800 800 [Byte.xff; Byte.xd8]])
    (fun _ => Ok tt)
    (fun _ => Ok (1%N, 1%N, [Byte.x00; Byte.x00; Byte.x00]))
    (fun _ => Ok (mk_image 0 0 []))
    (fun _ => mk_image 800 800 [])
    (fun _ => "0000000000000000")
    (fun _ => None)
    (fun _ _ _ => Ok tt).

(** A file whose metadata cannot be read. *)
Definition env_nometa : Env :=
  mkEnv
    (fun _ => Err "permission denied")
    (fs_read env0) (extract_exif_internal env0) (decode_heif env0) (reader_open env0)
    (reader_decode env0) (raw_open env0) (raw_extract_thumbs env0) (raw_unpack env0)
    (raw_process env0) (load_from_memory env0) (into_rgb8 env0)
    (generate_phash_from_image env0) (generate_clip_embedding_from_image env0)
    (generate_all_thumbnails_internal env0).

End Fixtures.

(** ** Measures used by the statements *)

Module Measures.

(** The number of samples a histogram holds: the sum of its bins. *)
Definition hist_total (h : Tone.hist) : N := fold_right N.add 0%N h.

(** The number of indices [k] in [i .. i + n - 1] with [k % step == 0]. *)
Definition count_from (step i n : nat) : nat :=
  length (filter (fun k => (k mod step =? 0)%nat) (seq i n)).

(** The number of pixel indices below [n] divisible by [step]. *)
Definition sampled_count (step n : nat) : nat := count_from step 0 n.

End Measures.

(** The order [SFcompare] puts on the non-NaN values of a [spec_float] is
    lexicographic on the key below (a finite float is compared by sign,
    then exponent, then mantissa). *)
Definition sf_key (x : spec_float) : Z * Z * Z :=
  match x with
  | S754_infinity true => (0, 0, 0)%Z
  | S754_finite true m e => (1, - e, - Z.pos m)%Z
  | S754_zero _ => (2, 0, 0)%Z
  | S754_finite false m e => (3, e, Z.pos m)%Z
  | S754_infinity false => (4, 0, 0)%Z
  | S754_nan => (5, 0, 0)%Z
  end.

Definition lexcmp (a b : Z * Z * Z) : comparison :=
  let '(a1, a2, a3) := a in
  let '(b1, b2, b3) := b in
  match Z.compare a1 b1 with
  | Eq => match Z.compare a2 b2 with Eq => Z.compare a3 b3 | r => r end
  | r => r
  end.

Definition is_nan (x : spec_float) : bool :=
  match x with S754_nan => true | _ => false end.

(** The strict lexicographic order on keys. *)
Definition lexlt (a b : Z * Z * Z) : Prop :=
  let '(a1, a2, a3) := a in
  let '(b1, b2, b3) := b in
  (a1 < b1 \/ (a1 = b1 /\ (a2 < b2 \/ (a2 = b2 /\ a3 < b3))))%Z.

(** ** Rounding of binary floating-point results

    What [SpecFloat]'s [binary_round] computes, in closed form: these
    definitions restate the rounding of the [spec_float] operations used
    by [build_tone_curve] ([SFsub] followed by [SFabs]) on integers, so
    that its ordering properties can be stated.  [prec] and [emax] are the
    format's parameters ([53] and [1024] for [f64]). *)
Module Rounding.
Local Open Scope Z_scope.

(** [n / 2^k] rounded to nearest, ties to even. *)
Definition rne (n k : Z) : Z :=
  let q := n / 2 ^ k in
  let r := n mod 2 ^ k in
  match Z.compare (2 * r) (2 ^ k) with
  | Lt => q
  | Gt => q + 1
  | Eq => if Z.even q then q else q + 1
  end.

(** A positive float [q * 2^E], or [+inf] above the exponent range. *)
Definition mkf (prec emax q E : Z) : spec_float :=
  if E <=? emax - prec then S754_finite false (Z.to_pos q) E else S754_infinity false.

(** The float of a rounded mantissa [q <= 2^prec] at exponent [E]: a carry
    to [2^prec] moves to the next exponent. *)
Definition round_fin (prec emax q E : Z) : spec_float :=
  if q =? 0 then S754_zero false
  else if q =? 2 ^ prec then mkf prec emax (2 ^ (prec - 1)) (E + 1)
  else mkf prec emax q E.

(** The non-negative integer [N], read in units of the smallest subnormal
    [2^emin], rounded to a float. *)
Definition round_val (prec emax N : Z) : spec_float :=
  if N <=? 0 then S754_zero false
  else binary_round prec emax false (Z.to_pos N) (SpecFloat.emin prec emax).

(** The value of a non-negative float in units of [2^emin]. *)
Definition fval (prec emax : Z) (x : spec_float) : Z :=
  match x with
  | S754_finite false m e => Zpos m * 2 ^ (e - SpecFloat.emin prec emax)
  | _ => 0
  end.

(** A (valid) float that is [+0], [-0] or positive and finite. *)
Definition nonneg_finite (prec emax : Z) (x : spec_float) : bool :=
  match x with
  | S754_zero _ => true
  | S754_finite false m e => bounded prec emax m e
  | _ => false
  end.

(** [sf_key (round_fin prec emax q E)], computed from [q] and [E]. *)
Definition round_fin_key (prec emax q E : Z) : Z * Z * Z :=
  if q =? 0 then (2, 0, 0)
  else if q =? 2 ^ prec then
    (if E + 1 <=? emax - prec then (3, E + 1, 2 ^ (prec - 1)) else (4, 0, 0))
  else if E <=? emax - prec then (3, E, q) else (4, 0, 0).

End Rounding.

(** ** The rest of the public API of [batch.rs] and [raw.rs] *)

(** [get_supported_extensions] of [batch.rs]: RAW, then HEIF, then the
    standard extensions. *)
Definition get_supported_extensions : list string :=
  RAW_EXTENSIONS ++ HEIF_EXTENSIONS ++ STANDARD_EXTENSIONS.

Module RawApi.
Import Tone Pipeline.

(** [RawProcessingResult] (its wall-clock [processing_time_ms] is left out). *)
Record RawProcessingResult : Type := mkRPR {
  rp_width : N;
  rp_height : N;
  jpeg_data : list Byte.byte;
  preview_jpeg : option (list Byte.byte);
  rp_histogram_matched : bool
}.

(** The placeholder [process_raw_batch] returns for a failed file. *)
Definition placeholder : RawProcessingResult := mkRPR 0 0 [] None false.

Section WithEnv.
Variable env : Env.
(** [JpegEncoder::new_with_quality(..).encode(..)] on an RGB raster *)
Variable jpeg_encode : image rgb -> N -> result (list Byte.byte) string.
(** [raw.process::<BIT_DEPTH_8>()] after [params.half_size = 1] *)
Variable raw_process_half_size : list Byte.byte -> result (N * N * list Byte.byte) string.

(** [read_file] *)
Definition read_file (file_path : string) : result (list Byte.byte) string :=
  match fs_read env file_path with
  | Ok d => Ok d
  | Err e => Err ("Failed to read file: " ++ e)
  end.

(** [process_raw_to_rgb] *)
Definition process_raw_to_rgb (raw : list Byte.byte) : result (image rgb) string :=
  match raw_unpack env raw with
  | Err e => Err ("Failed to unpack RAW: " ++ e)
  | Ok _ =>
  match raw_process env raw with
  | Err e => Err ("Failed to process RAW: " ++ e)
  | Ok (w, h, data) =>
  match from_raw w h data with
  | Some img => Ok img
  | None => Err "Failed to create image buffer"
  end end end.

(** [encode_jpeg_rgb] *)
Definition encode_jpeg_rgb (img : image rgb) (quality : N) : result (list Byte.byte) string :=
  match jpeg_encode img quality with
  | Ok buffer => Ok buffer
  | Err e => Err ("Failed to encode JPEG: " ++ e)
  end.

(** [process_raw_with_histogram_matching] *)
Definition process_raw_with_histogram_matching (file_path : string)
    : result RawProcessingResult string :=
  match read_file file_path with
  | Err e => Err e
  | Ok file_data =>
  match raw_open env file_data with
  | Err e => Err ("Failed to open RAW file: " ++ e)
  | Ok _ =>
  let '(preview_img, preview_jpeg) :=
    match extract_preview_with_jpeg env file_data with
    | Some (img, jpeg) => (Some img, Some jpeg)
    | None => (None, None)
    end in
  match raw_open env file_data with
  | Err e => Err ("Failed to reopen RAW file: " ++ e)
  | Ok _ =>
  match process_raw_to_rgb file_data with
  | Err e => Err e
  | Ok processed =>
  let width := N.of_nat (Img.width processed) in
  let height := N.of_nat (Img.height processed) in
  let '(histogram_matched, processed') := tone_match_decision preview_img processed in
  match encode_jpeg_rgb processed' 90 with
  | Err e => Err e
  | Ok jpeg_data => Ok (mkRPR width height jpeg_data preview_jpeg histogram_matched)
  end end end end end.

(** [process_raw_neutral_only] *)
Definition process_raw_neutral_only (file_path : string)
    : result RawProcessingResult string :=
  match read_file file_path with
  | Err e => Err e
  | Ok file_data =>
  match raw_open env file_data with
  | Err e => Err ("Failed to open RAW file: " ++ e)
  | Ok _ =>
  match process_raw_to_rgb file_data with
  | Err e => Err e
  | Ok processed =>
  let width := N.of_nat (Img.width processed) in
  let height := N.of_nat (Img.height processed) in
  match encode_jpeg_rgb processed 90 with
  | Err e => Err e
  | Ok jpeg_data => Ok (mkRPR width height jpeg_data None false)
  end end end end.

(** [process_raw_half_size] *)
Definition process_raw_half_size (file_path : string)
    : result RawProcessingResult string :=
  match read_file file_path with
  | Err e => Err e
  | Ok file_data =>
  match raw_open env file_data with
  | Err e => Err ("Failed to open RAW file: " ++ e)
  | Ok _ =>
  match raw_unpack env file_data with
  | Err e => Err ("Failed to unpack RAW: " ++ e)
  | Ok _ =>
  match raw_process_half_size file_data with
  | Err e => Err ("Failed to process RAW: " ++ e)
  | Ok (w, h, data) =>
  match from_raw w h data with
  | None => Err "Failed to create image buffer"
  | Some img =>
  match encode_jpeg_rgb img 85 with
  | Err e => Err e
  | Ok jpeg_data => Ok (mkRPR w h jpeg_data None false)
  end end end end end end.

(** [process_raw_batch]: rayon's indexed [collect] keeps the input order. *)
Definition process_raw_batch (file_paths : list string) : list RawProcessingResult :=
  map (fun p => match process_raw_with_histogram_matching p with
                | Ok r => r
                | Err _ => placeholder
                end) file_paths.

(** [extract_raw_preview] *)
Definition extract_raw_preview (file_path : string)
    : result (option (list Byte.byte)) string :=
  match read_file file_path with
  | Err e => Err e
  | Ok file_data =>
  match raw_open env file_data with
  | Err e => Err ("Failed to open RAW file: " ++ e)
  | Ok _ =>
  match raw_extract_thumbs env file_data with
  | Err _ => Ok None
  | Ok thumbs =>
      Ok (option_map th_data
            (max_by_key (fun t => (th_width t * th_height t)%N) (filter th_is_jpeg thumbs)))
  end end end.

(** [process_raw_complete] *)
Definition process_raw_complete (file_path relative_path thumbnails_dir : string)
    : RawCompleteResult :=
  process_raw_complete_internal env file_path relative_path thumbnails_dir.

(** [process_raw_batch_complete] *)
Definition process_raw_batch_complete (file_paths relative_paths : list string)
    (thumbnails_dir : string) : list RawCompleteResult :=
  map (fun '(i, p) =>
         let rel_path := match nth_error relative_paths i with
                         | Some r => r
                         | None => ""
                         end in
         process_raw_complete_internal env p rel_path thumbnails_dir)
      (combine (seq 0 (length file_paths)) file_paths).

End WithEnv.
End RawApi.

(** * Properties *)

Example detect_examples :
  detect_file_type "/photos/IMG_1.CR2" = Raw /\
  detect_file_type "a/b/c.HeIc" = Heif /\
  detect_file_type "x.jpeg" = Standard /\
  detect_file_type "notes.txt" = Unsupported /\
  detect_file_type ".cr2" = Unsupported /\
  detect_file_type "dir.nef/" = Raw /\
  get_raw_format "a/b.nef" = Some "NEF".
Proof. repeat split; reflexivity. Qed.

Example cdf_example :
  let c := Tone.histogram_to_cdf (1%N :: repeat 0%N 254 ++ [1%N])%list in
  Tone.build_tone_curve c c = (repeat 0%nat 255 ++ [255%nat])%list.
Proof. vm_compute. reflexivity. Qed.

(** ** The batch scheduler *)

Module BatchProps.
Import Pipeline.

Lemma nth_error_combine_seq {A : Type} (l : list A) (k i : nat) :
  nth_error (combine (seq k (length l)) l) i =
  option_map (fun p => (k + i, p)%nat) (nth_error l i).
Proof.
  revert k i; induction l as [|x l IH]; intros k i; simpl.
  - destruct i; reflexivity.
  - destruct i as [|i]; simpl.
    + rewrite Nat.add_0_r; reflexivity.
    + rewrite IH; destruct (nth_error l i); simpl; [f_equal; f_equal; lia|reflexivity].
Qed.

Lemma length_combine_seq {A : Type} (l : list A) (k : nat) :
  length (combine (seq k (length l)) l) = length l.
Proof. rewrite length_combine, length_seq; lia. Qed.

(** C1: the batch result has one record per input path, and record [i] is
    the single-item result for [file_paths[i]] and [relative_paths[i]]
    (the empty relative path when [relative_paths] is shorter); no item's
    outcome moves or removes another's record. *)
Theorem process_photos_batch_pointwise (env : Env) (file_paths relative_paths : list string)
    (thumbnails_dir : string) :
  let out := process_photos_batch env file_paths relative_paths thumbnails_dir in
  length out = length file_paths /\
  (forall i p, nth_error file_paths i = Some p ->
     nth_error out i =
       Some (process_photo_internal env p (nth i relative_paths "") thumbnails_dir)) /\
  (forall i p r, nth_error file_paths i = Some p -> nth_error relative_paths i = Some r ->
     nth_error out i = Some (process_photo_internal env p r thumbnails_dir)).
Proof.
  cbv zeta; unfold process_photos_batch.
  assert (Hpt : forall i p, nth_error file_paths i = Some p ->
     nth_error (map (fun '(i0, p0) =>
        process_photo_internal env p0
          match nth_error relative_paths i0 with Some r => r | None => "" end
          thumbnails_dir) (combine (seq 0 (length file_paths)) file_paths)) i =
     Some (process_photo_internal env p (nth i relative_paths "") thumbnails_dir)).
  { intros i p Hp. rewrite nth_error_map, nth_error_combine_seq, Hp; simpl.
    f_equal; f_equal.
    destruct (nth_error relative_paths i) eqn:Hr.
    - symmetry; apply nth_error_nth; exact Hr.
    - symmetry; apply nth_overflow; apply nth_error_None; exact Hr. }
  split; [|split].
  - rewrite length_map; apply length_combine_seq.
  - exact Hpt.
  - intros i p r Hp Hr. rewrite (Hpt i p Hp). erewrite nth_error_nth by exact Hr.
    reflexivity.
Qed.

Lemma process_photos_batch_pointwise_witness :
  nth_error ["a.jpg"; "b.txt"] 1 = Some "b.txt" /\ nth_error ["a"; "b"] 1 = Some "b" /\
  nth_error (process_photos_batch Fixtures.env0 ["a.jpg"; "b.txt"] ["a"; "b"] "thumbs") 1 =
    Some (process_photo_internal Fixtures.env0 "b.txt" "b" "thumbs").
Proof.
  split; [reflexivity|]. split; [reflexivity|].
  exact (proj2 (proj2 (process_photos_batch_pointwise Fixtures.env0 ["a.jpg"; "b.txt"]
           ["a"; "b"] "thumbs")) 1 "b.txt" "b" eq_refl eq_refl).
Defined.

End BatchProps.

(** ** Record invariants *)

Module RecordProps.
Import Pipeline.

Ltac case_matches :=
  repeat match goal with
         | |- context [match ?x with _ => _ end] => destruct x eqn:?
         end.

(** C2: on every path the record has a width exactly when it has a height,
    and it reports failure exactly when both are absent. *)
Theorem process_photo_dims_invariant (env : Env) (file_path relative_path thumbnails_dir : string) :
  let r := process_photo_internal env file_path relative_path thumbnails_dir in
  (p_width r = None <-> p_height r = None) /\
  (success r = false <-> p_width r = None /\ p_height r = None).
Proof.
  cbv zeta. unfold process_photo_internal, process_raw_file, process_standard_image.
  case_matches; simpl; intuition congruence.
Qed.

(** C3: [raw_status] is present exactly for paths classified as RAW, and it
    is ["converted"] on success and ["failed"] otherwise. *)
Theorem process_photo_raw_status (env : Env) (file_path relative_path thumbnails_dir : string) :
  let r := process_photo_internal env file_path relative_path thumbnails_dir in
  (raw_status r <> None <-> detect_file_type file_path = Raw) /\
  (forall st, raw_status r = Some st ->
     (st = "converted" /\ success r = true) \/ (st = "failed" /\ success r = false)).
Proof.
  cbv zeta. unfold process_photo_internal, process_raw_file, process_standard_image.
  case_matches; simpl; split; try (intuition congruence);
    intros st Hst; inversion Hst; subst; auto.
Qed.

Lemma process_photo_dims_invariant_witness :
  let r := process_photo_internal Fixtures.env0 "a.jpg" "a.jpg" "thumbs" in
  (p_width r = None <-> p_height r = None) /\
  (success r = false <-> p_width r = None /\ p_height r = None).
Proof. exact (process_photo_dims_invariant Fixtures.env0 "a.jpg" "a.jpg" "thumbs"). Defined.

Lemma process_photo_raw_status_witness :
  raw_status (process_photo_internal Fixtures.env0 "a.nef" "a.nef" "thumbs") = Some "converted" /\
  let r := process_photo_internal Fixtures.env0 "a.nef" "a.nef" "thumbs" in
  (raw_status r <> None <-> detect_file_type "a.nef" = Raw) /\
  (forall st, raw_status r = Some st ->
     (st = "converted" /\ success r = true) \/ (st = "failed" /\ success r = false)).
Proof.
  split; [vm_compute; reflexivity|].
  exact (process_photo_raw_status Fixtures.env0 "a.nef" "a.nef" "thumbs").
Defined.

End RecordProps.

(** ** Unsupported paths *)

Module UnsupportedProps.
Import Pipeline Fixtures.

(** C4 (as stated: size and timestamps taken from the file system when it
    can report them) fails: the file system reports 42 bytes for
    [notes.txt], the record says 0. *)
Lemma unsupported_size_counterexample :
  detect_file_type "notes.txt" = Unsupported /\
  fs_metadata env0 "notes.txt" = Ok (mkMetadata 42 (Some 1000%N) (Some 2000%N)) /\
  size (process_photo_internal env0 "notes.txt" "notes.txt" "thumbs") = 0%Z /\
  to_i64 42 = 42%Z.
Proof. repeat split; reflexivity. Qed.

(** C4 (amended): an unsupported path gives a failed record with no
    dimensions, no RAW status, the fixed error ["Unsupported file type"],
    size 0 and both timestamps 0.0, whatever the file system holds: the
    record does not depend on the environment at all. *)
Theorem process_photo_unsupported (env : Env) (file_path relative_path thumbnails_dir : string) :
  detect_file_type file_path = Unsupported ->
  let r := process_photo_internal env file_path relative_path thumbnails_dir in
  success r = false /\ p_width r = None /\ p_height r = None /\
  error r = Some "Unsupported file type" /\ raw_status r = None /\
  size r = 0%Z /\ created_at r = 0%float /\ modified_at r = 0%float /\
  path r = relative_path /\
  (forall env', process_photo_internal env' file_path relative_path thumbnails_dir = r).
Proof.
  intros Hu; cbv zeta; unfold process_photo_internal; rewrite Hu.
  repeat split; reflexivity.
Qed.

Lemma process_photo_unsupported_witness :
  detect_file_type "notes.txt" = Unsupported /\
  size (process_photo_internal env0 "notes.txt" "notes.txt" "thumbs") = 0%Z.
Proof.
  split; [reflexivity|].
  exact (proj1 (proj2 (proj2 (proj2 (proj2 (proj2
    (process_photo_unsupported env0 "notes.txt" "notes.txt" "thumbs" eq_refl))))))).
Defined.

End UnsupportedProps.

(** ** Orientation *)

Module OrientProps.

Section Generic.
Context {P : Type} (zero : P).

Lemma length_generate (w h : nat) (f : nat -> nat -> P) :
  length (pixels (generate w h f)) = (w * h)%nat.
Proof.
  unfold generate; simpl. induction h as [|h IH]; [simpl; lia|].
  rewrite seq_S, flat_map_app; simpl.
  rewrite length_app, IH; simpl. rewrite length_app, length_map, length_seq. simpl. lia.
Qed.

Lemma width_generate (w h : nat) (f : nat -> nat -> P) : width (generate w h f) = w.
Proof. reflexivity. Qed.

Lemma height_generate (w h : nat) (f : nat -> nat -> P) : height (generate w h f) = h.
Proof. reflexivity. Qed.

Lemma nth_generate (w h : nat) (f : nat -> nat -> P) (x y : nat) (d : P) :
  (x < w)%nat -> (y < h)%nat ->
  nth (y * w + x) (pixels (generate w h f)) d = f x y.
Proof.
  intros Hx Hy. unfold generate; simpl.
  induction h as [|h IH]; [lia|].
  rewrite seq_S, flat_map_app; simpl. rewrite app_nil_r.
  assert (Hlen : length (flat_map (fun y0 => map (fun x0 => f x0 y0) (seq 0 w)) (seq 0 h))
                 = (h * w)%nat).
  { clear IH Hy. induction h as [|h IH2]; [reflexivity|].
    rewrite seq_S, flat_map_app, length_app, IH2; simpl.
    rewrite app_nil_r, length_map, length_seq; lia. }
  destruct (Nat.eq_dec y h) as [->|Hne].
  - rewrite app_nth2 by lia. rewrite Hlen.
    replace (h * w + x - h * w)%nat with x by lia.
    rewrite nth_indep with (d' := f 0%nat h) by (rewrite length_map, length_seq; lia).
    change (f 0%nat h) with ((fun x0 => f x0 h) 0%nat). rewrite map_nth, seq_nth by lia. reflexivity.
  - rewrite app_nth1 by (rewrite Hlen; nia). apply IH; lia.
Qed.

Lemma generate_ext (w h : nat) (f g : nat -> nat -> P) :
  (forall x y, (x < w)%nat -> (y < h)%nat -> f x y = g x y) ->
  generate w h f = generate w h g.
Proof.
  intros Hfg. unfold generate. f_equal.
  rewrite !flat_map_concat_map. f_equal.
  apply map_ext_in; intros y Hy; apply in_seq in Hy.
  apply map_ext_in; intros x Hx; apply in_seq in Hx.
  apply Hfg; lia.
Qed.

Lemma map_nth_seq_firstn (l : list P) (d : P) (w : nat) :
  (w <= length l)%nat -> map (fun x => nth x l d) (seq 0 w) = firstn w l.
Proof.
  revert l; induction w as [|w IH]; intros l Hw; [reflexivity|].
  destruct l as [|a l]; simpl in Hw; [lia|].
  simpl. f_equal. rewrite <- seq_shift, map_map. apply IH. lia.
Qed.

Lemma generate_get_pixel (img : image P) :
  wf img -> generate (width img) (height img) (get_pixel zero img) = img.
Proof.
  destruct img as [w h l]; unfold wf, get_pixel, generate; simpl; intros Hl.
  f_equal. revert l Hl. induction h as [|h IH]; intros l Hl.
  - simpl. rewrite Nat.mul_0_r in Hl. destruct l; [reflexivity|discriminate].
  - change (seq 0 (S h)) with (0%nat :: seq 1 h). cbn [flat_map].
    rewrite (map_ext (fun x => nth (0 * w + x) l zero) (fun x => nth x l zero)) by reflexivity.
    rewrite map_nth_seq_firstn by nia.
    transitivity (firstn w l ++ skipn w l)%list; [|apply firstn_skipn]. f_equal.
    rewrite <- seq_shift, flat_map_concat_map, map_map, <- flat_map_concat_map.
    rewrite <- (IH (skipn w l)) by (rewrite length_skipn; nia).
    apply flat_map_ext; intros y. apply map_ext; intros x.
    assert (Hw : (w <= length l)%nat) by nia.
    rewrite <- (firstn_skipn w l) at 1.
    rewrite app_nth2 by (rewrite length_firstn; nia).
    rewrite length_firstn. f_equal. lia.
Qed.

End Generic.

(** C7: an absent orientation, orientation 1, and every code outside
    2..8 leave the raster unchanged. *)
Theorem apply_orientation_identity {P : Type} (zero : P) (img : image P) (orientation : option N) :
  (forall n, orientation = Some n -> (n < 2 \/ 8 < n)%N) ->
  apply_orientation zero img orientation = img.
Proof.
  intros H. unfold apply_orientation. destruct orientation as [n|]; [|reflexivity].
  specialize (H n eq_refl).
  repeat match goal with
         | |- context [N.eqb n ?k] =>
             let E := fresh "E" in
             destruct (N.eqb n k) eqn:E; [apply N.eqb_eq in E; lia|]
         end.
  reflexivity.
Qed.

Lemma apply_orientation_identity_witness :
  (forall n, Some 9%N = Some n -> (n < 2 \/ 8 < n)%N) /\
  apply_orientation 0%nat (mk_image 1 1 [7%nat]) (Some 9%N) = mk_image 1 1 [7%nat].
Proof.
  assert (H : forall n, Some 9%N = Some n -> (n < 2 \/ 8 < n)%N)
    by (intros n Hn; inversion Hn; lia).
  split; [exact H|]. exact (apply_orientation_identity 0%nat (mk_image 1 1 [7%nat]) (Some 9%N) H).
Defined.

(** C8: orientation 6 turns a [W x H] raster into an [H x W] one, and
    orientation 8 applied to that result gives back the original raster,
    pixel for pixel. *)
Theorem orientation_6_then_8 {P : Type} (zero : P) (img : image P) :
  wf img ->
  let r := apply_orientation zero img (Some 6%N) in
  width r = height img /\ height r = width img /\ wf r /\
  apply_orientation zero r (Some 8%N) = img.
Proof.
  intros Hwf. cbv zeta. cbn [apply_orientation N.eqb Pos.eqb].
  unfold rotate90. cbv zeta.
  rewrite width_generate, height_generate.
  split; [reflexivity|split; [reflexivity|split]].
  - unfold wf. rewrite length_generate, width_generate, height_generate. reflexivity.
  - cbn [apply_orientation N.eqb Pos.eqb]. unfold rotate270. cbv zeta.
    rewrite width_generate, height_generate.
    transitivity (generate (width img) (height img) (get_pixel zero img));
      [|apply generate_get_pixel; exact Hwf].
    apply generate_ext. intros x y Hx Hy.
    unfold get_pixel at 1. rewrite width_generate.
    rewrite nth_generate by lia. f_equal. lia.
Qed.

Lemma orientation_6_then_8_witness :
  wf (mk_image 3 2 [1;2;3;4;5;6]%nat) /\
  apply_orientation 0%nat (apply_orientation 0%nat (mk_image 3 2 [1;2;3;4;5;6]%nat) (Some 6%N))
    (Some 8%N) = mk_image 3 2 [1;2;3;4;5;6]%nat.
Proof.
  assert (H : wf (mk_image 3 2 [1;2;3;4;5;6]%nat)) by reflexivity.
  split; [exact H|].
  exact (proj2 (proj2 (proj2 (orientation_6_then_8 0%nat _ H)))).
Defined.

End OrientProps.

(** ** RAW tone-matching decision *)

Module RawProps.
Import Pipeline Fixtures.

Ltac case_all :=
  repeat match goal with
         | |- context [match ?x with _ => _ end] => destruct x eqn:?
         | H : context [match ?x with _ => _ end] |- _ => destruct x eqn:?
         | u : unit |- _ => destruct u
         | H : (_, _) = (_, _) |- _ => inversion H; subst; clear H
         | H : Some _ = Some _ |- _ => inversion H; subst; clear H
         | H : Ok _ = Ok _ |- _ => inversion H; subst; clear H
         end.

(** C6: processing of a RAW file succeeds exactly when both reads, the
    open, the unpack, the demosaic and the buffer creation succeed (the
    preview plays no part in it), and on success [histogram_matched] holds
    exactly when a JPEG preview was extracted and decoded and its shorter
    side is at least 800 pixels. *)
Theorem raw_histogram_matched_iff (env : Env) (file_path relative_path thumbnails_dir : string) :
  let r := process_raw_complete_internal env file_path relative_path thumbnails_dir in
  (r_success r = true <->
     exists data w h bytes img,
       fs_read env file_path = Ok data /\ raw_open env data = Ok tt /\
       raw_unpack env data = Ok tt /\ raw_process env data = Ok (w, h, bytes) /\
       from_raw w h bytes = Some img) /\
  (r_success r = true ->
     (histogram_matched r = true <->
        exists data preview jpeg,
          fs_read env file_path = Ok data /\
          extract_preview_with_jpeg env data = Some (preview, jpeg) /\
          (800 <= Nat.min (width preview) (height preview))%nat)).
Proof.
  cbv zeta. unfold process_raw_complete_internal, tone_match_decision.
  case_all; simpl; split; try split; intros;
    repeat match goal with
           | H : exists _, _ |- _ => destruct H
           | H : _ /\ _ |- _ => destruct H
           | H : Ok _ = Ok _ |- _ => inversion H; subst; clear H
           | H : Some _ = Some _ |- _ => inversion H; subst; clear H
           | H : (_ <=? _)%nat = false |- _ => apply Nat.leb_nle in H
           end;
    try congruence;
    try (repeat eexists; eauto; fail);
    try (do 3 eexists; split; [reflexivity|split; [eassumption|apply Nat.leb_le; eassumption]]).
Qed.

Lemma raw_histogram_matched_iff_witness :
  r_success (process_raw_complete_internal env_raw800 "a.nef" "a.nef" "thumbs") = true /\
  (histogram_matched (process_raw_complete_internal env_raw800 "a.nef" "a.nef" "thumbs") = true <->
     exists data preview jpeg,
       fs_read env_raw800 "a.nef" = Ok data /\
       extract_preview_with_jpeg env_raw800 data = Some (preview, jpeg) /\
       (800 <= Nat.min (width preview) (height preview))%nat).
Proof.
  assert (S : r_success (process_raw_complete_internal env_raw800 "a.nef" "a.nef" "thumbs") = true)
    by (vm_compute; reflexivity).
  split; [exact S|].
  exact (proj2 (raw_histogram_matched_iff env_raw800 "a.nef" "a.nef" "thumbs") S).
Defined.

End RawProps.

(** ** Histogram sampling *)

Module SampleProps.
Import Tone Measures.

Lemma length_list_update {A : Type} (l : list A) (i : nat) (f : A -> A) :
  length (list_update l i f) = length l.
Proof. revert i; induction l as [|x l IH]; intros [|i]; simpl; auto. Qed.

Lemma total_list_update (l : list N) (i : nat) (f : N -> N) :
  (i < length l)%nat ->
  (hist_total (list_update l i f) + nth i l 0 = hist_total l + f (nth i l 0))%N.
Proof.
  revert i; induction l as [|x l IH]; intros [|i] Hi; simpl in *; try lia.
  specialize (IH i ltac:(lia)). unfold hist_total in *. simpl. lia.
Qed.

Lemma nth_le_total (l : list N) (i : nat) : (nth i l 0 <= hist_total l)%N.
Proof.
  revert i; induction l as [|x l IH]; intros [|i]; simpl; unfold hist_total in *; simpl;
    try lia. specialize (IH i). lia.
Qed.

Lemma bump_total (h : hist) (v : Byte.byte) :
  length h = 256%nat -> (hist_total h + 1 < 2 ^ 64)%N ->
  hist_total (bump h v) = (hist_total h + 1)%N /\ length (bump h v) = 256%nat.
Proof.
  intros Hlen Hov. unfold bump. split; [|rewrite length_list_update; exact Hlen].
  pose proof (Byte.to_nat_bounded v) as Hb.
  pose proof (total_list_update h (Byte.to_nat v) (fun c => u64_wrap (c + 1)) ltac:(lia)) as E.
  pose proof (nth_le_total h (Byte.to_nat v)) as Hle.
  cbv beta in E.
  assert (W : u64_wrap (nth (Byte.to_nat v) h 0%N + 1) = (nth (Byte.to_nat v) h 0%N + 1)%N)
    by (unfold u64_wrap; apply N.mod_small; lia).
  rewrite W in E. lia.
Qed.

Lemma count_from_S (step i n : nat) :
  count_from step i (S n) =
  ((if (i mod step =? 0)%nat then 1 else 0) + count_from step (S i) n)%nat.
Proof. unfold count_from; simpl. destruct (i mod step =? 0)%nat; reflexivity. Qed.

Lemma hist_loop_totals (step : nat) (px : list rgb) :
  forall i hr hg hb,
  length hr = 256%nat -> length hg = 256%nat -> length hb = 256%nat ->
  (hist_total hr + N.of_nat (length px) < 2 ^ 64)%N ->
  (hist_total hg + N.of_nat (length px) < 2 ^ 64)%N ->
  (hist_total hb + N.of_nat (length px) < 2 ^ 64)%N ->
  let r := hist_loop step i px (hr, hg, hb) in
  let c := N.of_nat (count_from step i (length px)) in
  hist_total (fst (fst r)) = (hist_total hr + c)%N /\
  hist_total (snd (fst r)) = (hist_total hg + c)%N /\
  hist_total (snd r) = (hist_total hb + c)%N.
Proof.
  induction px as [|p px IH]; intros i hr hg hb Lr Lg Lb Or Og Ob; cbv zeta;
    unfold hist in *.
  - simpl. unfold count_from; simpl. lia.
  - cbn [hist_loop length]. rewrite count_from_S.
    cbn [length] in Or, Og, Ob. rewrite Nat2N.inj_succ in Or, Og, Ob.
    destruct (i mod step =? 0)%nat.
    + destruct (bump_total hr (ch0 p) Lr ltac:(lia)) as [Tr Lr'].
      destruct (bump_total hg (ch1 p) Lg ltac:(lia)) as [Tg Lg'].
      destruct (bump_total hb (ch2 p) Lb ltac:(lia)) as [Tb Lb'].
      destruct (IH (S i) _ _ _ Lr' Lg' Lb' ltac:(lia) ltac:(lia) ltac:(lia))
        as (A & B & C). unfold hist in *.
      rewrite A, B, C. lia.
    + destruct (IH (S i) _ _ _ Lr Lg Lb ltac:(lia) ltac:(lia) ltac:(lia)) as (A & B & C).
      unfold hist in *. rewrite A, B, C. lia.
Qed.

Lemma count_from_one (i n : nat) : count_from 1 i n = n.
Proof.
  revert i; induction n as [|n IH]; intros i; [reflexivity|].
  rewrite count_from_S, IH, Nat.mod_1_r. reflexivity.
Qed.

Lemma hist_total_empty : hist_total empty_hist = 0%N.
Proof. reflexivity. Qed.

Lemma length_empty_hist : length empty_hist = 256%nat.
Proof. reflexivity. Qed.

(** Every channel histogram of [compute_rgb_histograms_sampled] holds one
    sample per pixel index divisible by the stride. *)
Lemma compute_histograms_totals (img : image rgb) :
  wf img -> (N.of_nat (width img * height img) < 2 ^ 64)%N ->
  let n := (width img * height img)%nat in
  let c := N.of_nat (sampled_count (sample_step n) n) in
  let hs := compute_rgb_histograms_sampled img in
  hist_total (fst (fst hs)) = c /\ hist_total (snd (fst hs)) = c /\ hist_total (snd hs) = c.
Proof.
  intros Hwf Hov. cbv zeta. unfold compute_rgb_histograms_sampled, sampled_count.
  unfold wf in Hwf. rewrite firstn_all2 by lia.
  pose proof (hist_loop_totals (sample_step (width img * height img)) (pixels img) 0
                empty_hist empty_hist empty_hist length_empty_hist length_empty_hist
                length_empty_hist) as H.
  rewrite hist_total_empty, Hwf in H. specialize (H Hov Hov Hov). cbv zeta in H.
  rewrite !N.add_0_l in H. unfold hist in *. exact H.
Qed.

Lemma count_from_snoc (step i n : nat) :
  count_from step i (S n) =
  (count_from step i n + (if ((i + n) mod step =? 0)%nat then 1 else 0))%nat.
Proof.
  unfold count_from. rewrite seq_S, filter_app, length_app. simpl.
  destruct ((i + n) mod step =? 0)%nat; reflexivity.
Qed.

Lemma ceil_div_S (s n : nat) : (1 <= s)%nat ->
  ((n + s - 1) / s + (if (n mod s =? 0)%nat then 1 else 0) = (S n + s - 1) / s)%nat.
Proof.
  intros Hs.
  pose proof (Nat.div_mod_eq n s) as Hd.
  pose proof (Nat.mod_upper_bound n s ltac:(lia)) as Hm.
  set (q := n / s) in *. set (r := n mod s) in *.
  destruct (r =? 0)%nat eqn:E.
  - apply Nat.eqb_eq in E.
    rewrite <- (Nat.div_unique (n + s - 1) s q (s - 1)) by nia.
    rewrite <- (Nat.div_unique (S n + s - 1) s (S q) 0) by nia.
    lia.
  - apply Nat.eqb_neq in E.
    rewrite <- (Nat.div_unique (n + s - 1) s (S q) (r - 1)) by nia.
    rewrite <- (Nat.div_unique (S n + s - 1) s (S q) r) by nia.
    lia.
Qed.

(** Closed form: the indices below [n] divisible by [s] number [ceil(n / s)]. *)
Lemma sampled_count_ceil (s n : nat) : (1 <= s)%nat ->
  sampled_count s n = ((n + s - 1) / s)%nat.
Proof.
  intros Hs. unfold sampled_count. induction n as [|n IH].
  - unfold count_from; simpl. symmetry. apply Nat.div_small. lia.
  - rewrite count_from_snoc, IH. simpl (0 + n)%nat. apply ceil_div_S; exact Hs.
Qed.

Lemma stride_formula (K n : nat) : (1 <= K)%nat ->
  (if (K <? n)%nat then Nat.max (n / K) 1 else 1) = (if (K <? n)%nat then n / K else 1)%nat.
Proof.
  intros HK. destruct (K <? n)%nat eqn:E; [|reflexivity].
  apply Nat.ltb_lt in E. apply Nat.max_l.
  apply Nat.div_le_lower_bound; lia.
Qed.

Lemma stride_count_bound (K n : nat) : (1 <= K)%nat ->
  let s := (if (K <? n)%nat then Nat.max (n / K) 1 else 1)%nat in
  ((n + s - 1) / s < 2 * K)%nat \/ (n <= K /\ s = 1 /\ (n + s - 1) / s = n)%nat.
Proof.
  intros HK. cbv zeta. rewrite stride_formula by exact HK.
  destruct (K <? n)%nat eqn:E.
  - apply Nat.ltb_lt in E. left.
    pose proof (Nat.div_mod_eq n K) as Hd.
    pose proof (Nat.mod_upper_bound n K ltac:(lia)) as Hm.
    assert (Hq : (1 <= n / K)%nat) by (apply Nat.div_le_lower_bound; lia).
    apply Nat.Div0.div_lt_upper_bound. nia.
  - apply Nat.ltb_ge in E. right. rewrite Nat.add_sub, Nat.div_1_r. lia.
Qed.

(** With the 500,000 target, fewer than twice the target are sampled. *)
Lemma sample_count_lt (n : nat) :
  ((n + sample_step n - 1) / sample_step n < 2 * 500000)%nat.
Proof.
  assert (HK : (1 <= 500000)%nat) by (apply Nat.leb_le; vm_compute; reflexivity).
  unfold sample_step.
  destruct (stride_count_bound 500000 n HK) as [H | (H1 & H2 & H3)]; [exact H|].
  rewrite H3. generalize dependent 500000. intros. lia.
Qed.

Lemma sample_step_pos (n : nat) : (1 <= sample_step n)%nat.
Proof. unfold sample_step. destruct (500000 <? n)%nat; [apply Nat.le_max_r|lia]. Qed.

(** Counterexample to C9's bound "at most ~500,000 pixels sampled per
    raster": a 999,999 x 1 raster lies above the 500,000 threshold, yet its
    stride is [999999 / 500000 = 1], so all 999,999 pixels are sampled into
    each channel histogram, nearly twice the target. *)
Lemma sampling_bound_counterexample :
  let img := mk_image 999999 1 (repeat zero_rgb 999999) in
  let hs := compute_rgb_histograms_sampled img in
  hist_total (fst (fst hs)) = 999999%N /\ hist_total (snd (fst hs)) = 999999%N /\
  hist_total (snd hs) = 999999%N.
Proof.
  cbv zeta.
  assert (Hwf : wf (mk_image 999999 1 (repeat zero_rgb 999999))).
  { unfold wf; cbn [pixels width height]. rewrite repeat_length, Nat.mul_1_r. reflexivity. }
  assert (Hov : (N.of_nat (width (mk_image 999999 1 (repeat zero_rgb 999999)) *
                           height (mk_image 999999 1 (repeat zero_rgb 999999))) < 2 ^ 64)%N).
  { cbn [width height]. rewrite Nat.mul_1_r. vm_compute. reflexivity. }
  pose proof (compute_histograms_totals _ Hwf Hov) as H. cbv zeta in H.
  cbn [width height] in H. rewrite Nat.mul_1_r in H.
  assert (Hs : sample_step 999999 = 1%nat) by (vm_compute; reflexivity).
  unfold sampled_count in H. rewrite Hs, count_from_one in H.
  assert (Hn : N.of_nat 999999 = 999999%N) by (vm_compute; reflexivity).
  rewrite Hn in H. exact H.
Qed.

(** C9 (amended): for a well-formed raster with [u32] dimensions and
    [n = width * height] pixels, the stride is [n / 500000] when
    [n > 500000] and 1 otherwise (always at least 1); each channel
    histogram's total count is the number of pixel indices below [n]
    divisible by the stride, which is [ceil(n / stride)] and is fewer than
    [2 * 500000] (not at most about 500,000: up to 999,999 can be sampled). *)
Theorem histogram_sampling_stride (img : image rgb) :
  wf img -> (N.of_nat (width img) < 2 ^ 32)%N -> (N.of_nat (height img) < 2 ^ 32)%N ->
  let n := (width img * height img)%nat in
  let step := sample_step n in
  let hs := compute_rgb_histograms_sampled img in
  step = (if (500000 <? n)%nat then n / 500000 else 1)%nat /\
  (1 <= step)%nat /\
  hist_total (fst (fst hs)) = N.of_nat (sampled_count step n) /\
  hist_total (snd (fst hs)) = N.of_nat (sampled_count step n) /\
  hist_total (snd hs) = N.of_nat (sampled_count step n) /\
  sampled_count step n = ((n + step - 1) / step)%nat /\
  (sampled_count step n < 2 * 500000)%nat.
Proof.
  intros Hwf Hw Hh. cbv zeta.
  assert (HK : (1 <= 500000)%nat) by (apply Nat.leb_le; vm_compute; reflexivity).
  assert (Hov : (N.of_nat (width img * height img) < 2 ^ 64)%N).
  { rewrite Nat2N.inj_mul.
    apply N.lt_le_trans with (2 ^ 32 * 2 ^ 32)%N; [|vm_compute; discriminate].
    apply N.mul_lt_mono; assumption. }
  destruct (compute_histograms_totals img Hwf Hov) as (A & B & C).
  pose proof (sample_step_pos (width img * height img)) as Hp.
  rewrite sampled_count_ceil by exact Hp.
  split; [unfold sample_step; apply stride_formula; exact HK|].
  split; [exact Hp|].
  rewrite <- (sampled_count_ceil _ _ Hp).
  split; [exact A|]. split; [exact B|]. split; [exact C|]. split; [reflexivity|].
  rewrite (sampled_count_ceil _ _ Hp). apply sample_count_lt.
Qed.

Lemma histogram_sampling_stride_witness :
  let img := mk_image 2 2 [zero_rgb; zero_rgb; zero_rgb; zero_rgb] in
  wf img /\ (N.of_nat (width img) < 2 ^ 32)%N /\ (N.of_nat (height img) < 2 ^ 32)%N /\
  let n := (width img * height img)%nat in
  let step := sample_step n in
  let hs := compute_rgb_histograms_sampled img in
  step = (if (500000 <? n)%nat then n / 500000 else 1)%nat /\
  (1 <= step)%nat /\
  hist_total (fst (fst hs)) = N.of_nat (sampled_count step n) /\
  hist_total (snd (fst hs)) = N.of_nat (sampled_count step n) /\
  hist_total (snd hs) = N.of_nat (sampled_count step n) /\
  sampled_count step n = ((n + step - 1) / step)%nat /\
  (sampled_count step n < 2 * 500000)%nat.
Proof.
  cbv zeta.
  assert (Hwf : wf (mk_image 2 2 [zero_rgb; zero_rgb; zero_rgb; zero_rgb]))
    by reflexivity.
  assert (Hw : (N.of_nat 2 < 2 ^ 32)%N) by reflexivity.
  split; [exact Hwf|]. split; [exact Hw|]. split; [exact Hw|].
  exact (histogram_sampling_stride _ Hwf Hw Hw).
Defined.

End SampleProps.

(** ** Order facts of binary64 comparisons *)

Module FloatOrder.
Import Measures.

Lemma lexcmp_cases (a b : Z * Z * Z) :
  match lexcmp a b with Lt => lexlt a b | Eq => a = b | Gt => lexlt b a end.
Proof.
  destruct a as [[a1 a2] a3], b as [[b1 b2] b3]; unfold lexcmp, lexlt.
  destruct (Z.compare_spec a1 b1); [subst|lia|lia].
  destruct (Z.compare_spec a2 b2); [subst|lia|lia].
  destruct (Z.compare_spec a3 b3); [subst; reflexivity|lia|lia].
Qed.

Lemma lexlt_trans (a b c : Z * Z * Z) : lexlt a b -> lexlt b c -> lexlt a c.
Proof.
  destruct a as [[a1 a2] a3], b as [[b1 b2] b3], c as [[c1 c2] c3];
    unfold lexlt; lia.
Qed.

Lemma lexlt_irrefl (a : Z * Z * Z) : ~ lexlt a a.
Proof. destruct a as [[a1 a2] a3]; unfold lexlt; lia. Qed.

Lemma SFcompare_key (x y : spec_float) :
  is_nan x = false -> is_nan y = false ->
  SFcompare x y = Some (lexcmp (sf_key x) (sf_key y)).
Proof.
  intros Hx Hy.
  destruct x as [sx|sx| |sx mx ex]; destruct y as [sy|sy| |sy my ey];
    try discriminate; try destruct sx; try destruct sy; try reflexivity;
    cbn -[Z.compare].
  - rewrite Z.compare_opp, (Z.compare_antisym ex ey).
    destruct (ex ?= ey)%Z; reflexivity.
Qed.

(** The comparison predicates of [PrimFloat], read through the key. *)
Lemma ltb_key (x y : float) :
  (x <? y)%float = true <->
  is_nan (Prim2SF x) = false /\ is_nan (Prim2SF y) = false /\
  lexlt (sf_key (Prim2SF x)) (sf_key (Prim2SF y)).
Proof.
  rewrite ltb_spec. unfold SFltb.
  destruct (is_nan (Prim2SF x)) eqn:Ex.
  { destruct (Prim2SF x); try discriminate; simpl; split; [discriminate|intuition]. }
  destruct (is_nan (Prim2SF y)) eqn:Ey.
  { destruct (Prim2SF y); try discriminate;
      destruct (Prim2SF x); simpl; split; try discriminate; intuition. }
  rewrite (SFcompare_key _ _ Ex Ey).
  pose proof (lexcmp_cases (sf_key (Prim2SF x)) (sf_key (Prim2SF y))) as C.
  destruct (lexcmp _ _); split; intros H; try discriminate; try tauto.
  - destruct H as (_ & _ & H). rewrite C in H. exfalso; exact (lexlt_irrefl _ H).
  - destruct H as (_ & _ & H). exfalso; exact (lexlt_irrefl _ (lexlt_trans _ _ _ H C)).
Qed.

Lemma leb_key (x y : float) :
  (x <=? y)%float = true <->
  is_nan (Prim2SF x) = false /\ is_nan (Prim2SF y) = false /\
  ~ lexlt (sf_key (Prim2SF y)) (sf_key (Prim2SF x)).
Proof.
  rewrite leb_spec. unfold SFleb.
  destruct (is_nan (Prim2SF x)) eqn:Ex.
  { destruct (Prim2SF x); try discriminate; simpl; split; [discriminate|intuition]. }
  destruct (is_nan (Prim2SF y)) eqn:Ey.
  { destruct (Prim2SF y); try discriminate;
      destruct (Prim2SF x); simpl; split; try discriminate; intuition. }
  rewrite (SFcompare_key _ _ Ex Ey).
  pose proof (lexcmp_cases (sf_key (Prim2SF x)) (sf_key (Prim2SF y))) as C.
  destruct (lexcmp _ _); split; intros H; try discriminate; try tauto.
  - split; [reflexivity|split; [reflexivity|]]. rewrite C. apply lexlt_irrefl.
  - split; [reflexivity|split; [reflexivity|]]. intros D.
    exact (lexlt_irrefl _ (lexlt_trans _ _ _ C D)).
Qed.

Lemma eqb_key (x y : float) :
  (x =? y)%float = true <->
  is_nan (Prim2SF x) = false /\ is_nan (Prim2SF y) = false /\
  sf_key (Prim2SF x) = sf_key (Prim2SF y).
Proof.
  rewrite eqb_spec. unfold SFeqb.
  destruct (is_nan (Prim2SF x)) eqn:Ex.
  { destruct (Prim2SF x); try discriminate; simpl; split; [discriminate|intuition]. }
  destruct (is_nan (Prim2SF y)) eqn:Ey.
  { destruct (Prim2SF y); try discriminate;
      destruct (Prim2SF x); simpl; split; try discriminate; intuition. }
  rewrite (SFcompare_key _ _ Ex Ey).
  pose proof (lexcmp_cases (sf_key (Prim2SF x)) (sf_key (Prim2SF y))) as C.
  destruct (lexcmp _ _); split; intros H; try discriminate; try tauto.
  - destruct H as (_ & _ & H). rewrite H in C. exfalso; exact (lexlt_irrefl _ C).
  - destruct H as (_ & _ & H). rewrite H in C. exfalso; exact (lexlt_irrefl _ C).
Qed.

Lemma ltb_irrefl (x : float) : (x <? x)%float = false.
Proof.
  destruct (x <? x)%float eqn:E; [|reflexivity].
  apply ltb_key in E. destruct E as (_ & _ & E). exfalso; exact (lexlt_irrefl _ E).
Qed.

Lemma leb_ltb_trans (a b c : float) :
  (a <=? b)%float = true -> (b <? c)%float = true -> (a <? c)%float = true.
Proof.
  rewrite leb_key, !ltb_key. intros (Na & Nb & H1) (_ & Nc & H2).
  split; [exact Na|split; [exact Nc|]].
  pose proof (lexcmp_cases (sf_key (Prim2SF a)) (sf_key (Prim2SF b))) as C.
  destruct (lexcmp _ _).
  - rewrite C; exact H2.
  - exact (lexlt_trans _ _ _ C H2).
  - exfalso; exact (H1 C).
Qed.

Lemma ltb_leb_trans (a b c : float) :
  (a <? b)%float = true -> (b <=? c)%float = true -> (a <? c)%float = true.
Proof.
  rewrite leb_key, !ltb_key. intros (Na & Nb & H1) (_ & Nc & H2).
  split; [exact Na|split; [exact Nc|]].
  pose proof (lexcmp_cases (sf_key (Prim2SF b)) (sf_key (Prim2SF c))) as C.
  destruct (lexcmp _ _).
  - rewrite <- C; exact H1.
  - exact (lexlt_trans _ _ _ H1 C).
  - exfalso; exact (H2 C).
Qed.

Lemma leb_trans (a b c : float) :
  (a <=? b)%float = true -> (b <=? c)%float = true -> (a <=? c)%float = true.
Proof.
  rewrite !leb_key. intros (Na & Nb & H1) (_ & Nc & H2).
  split; [exact Na|split; [exact Nc|]]. intros H3.
  pose proof (lexcmp_cases (sf_key (Prim2SF a)) (sf_key (Prim2SF b))) as C.
  destruct (lexcmp _ _).
  - rewrite C in H3. exact (H2 H3).
  - exact (H2 (lexlt_trans _ _ _ H3 C)).
  - exact (H1 C).
Qed.

Lemma leb_not_ltb (a b : float) : (a <=? b)%float = true -> (b <? a)%float = false.
Proof.
  intros H. destruct (b <? a)%float eqn:E; [|reflexivity].
  rewrite ltb_key in E. rewrite leb_key in H. destruct E as (_ & _ & E).
  destruct H as (_ & _ & H). exfalso; exact (H E).
Qed.

Lemma leb_not_ltb_eqb (a b : float) :
  (a <=? b)%float = true -> (a <? b)%float = false -> (a =? b)%float = true.
Proof.
  intros H1 H2. pose proof H1 as H1'. rewrite leb_key in H1. rewrite eqb_key.
  destruct H1 as (Na & Nb & H1). split; [exact Na|split; [exact Nb|]].
  pose proof (lexcmp_cases (sf_key (Prim2SF a)) (sf_key (Prim2SF b))) as C.
  destruct (lexcmp _ _).
  - exact C.
  - assert (L : (a <? b)%float = true) by (apply ltb_key; tauto).
    rewrite L in H2; discriminate.
  - exfalso; exact (H1 C).
Qed.

Lemma eqb_sym_ltb (a b c : float) :
  (a =? b)%float = true -> (a <? c)%float = (b <? c)%float.
Proof.
  rewrite eqb_key. intros (Na & Nb & E).
  destruct (a <? c)%float eqn:A; destruct (b <? c)%float eqn:B; try reflexivity.
  - apply ltb_key in A.
    assert (X : (b <? c)%float = true) by (apply ltb_key; rewrite <- E; tauto).
    congruence.
  - apply ltb_key in B.
    assert (X : (a <? c)%float = true) by (apply ltb_key; rewrite E; tauto).
    congruence.
Qed.

Lemma leb_eqb_refl (a b : float) :
  (a <=? b)%float = true -> (a =? a)%float = true /\ (b =? b)%float = true.
Proof.
  rewrite leb_key, !eqb_key. intros (Na & Nb & _). tauto.
Qed.

(** [|x - y|] is zero (or NaN) when [x] and [y] compare equal. *)
Lemma SFsub_key_eq (x y : spec_float) :
  is_nan x = false -> is_nan y = false -> sf_key x = sf_key y ->
  SFabs (SFsub prec emax x y) = S754_zero false \/
  SFabs (SFsub prec emax x y) = S754_nan.
Proof.
  intros Hx Hy E.
  destruct x as [sx|sx| |sx mx ex]; destruct y as [sy|sy| |sy my ey];
    try discriminate; try destruct sx; try destruct sy; simpl in E;
    try discriminate; try (left; reflexivity); try (right; reflexivity).
  - injection E as E1 E2. assert (ex = ey) by lia. assert (mx = my) by lia. subst.
    left. unfold SFsub. rewrite Z.sub_diag. reflexivity.
  - injection E as E1 E2. subst.
    left. unfold SFsub. rewrite Z.sub_diag. reflexivity.
Qed.

Lemma SFltb_abs_zero_nan (z w : spec_float) :
  w = S754_zero false \/ w = S754_nan -> SFltb (SFabs z) w = false.
Proof.
  intros [-> | ->]; destruct z as [s|s| |s m e]; reflexivity.
Qed.

(** The closer-neighbour test of [build_tone_curve] never fires against an
    entry equal to the percentile. *)
Lemma abs_sub_not_lt_eq (sp x y : float) :
  (y =? sp)%float = true -> (abs (sp - x) <? abs (sp - y))%float = false.
Proof.
  intros H. rewrite eqb_key in H. destruct H as (Ny & Ns & E).
  rewrite ltb_spec, !abs_spec, !sub_spec.
  apply SFltb_abs_zero_nan. apply SFsub_key_eq; auto.
Qed.

End FloatOrder.

(** ** The tone curve ([build_tone_curve]) *)

Module ToneProps.
Import Tone FloatOrder.

Lemma nth_build_tone_curve (s t : list float) (i : nat) :
  (i < 256)%nat -> nth i (build_tone_curve s t) 0%nat = tone_entry s t i.
Proof.
  intros Hi. unfold build_tone_curve.
  rewrite (nth_indep _ _ (tone_entry s t 0%nat)) by (rewrite length_map, length_seq; lia).
  rewrite map_nth, seq_nth by lia. reflexivity.
Qed.

Lemma forall_lt_of_forallb (f : nat -> bool) (n : nat) :
  forallb f (seq 0 n) = true -> forall j, (j < n)%nat -> f j = true.
Proof.
  intros H j Hj. rewrite forallb_forall in H. apply H.
  apply in_seq. lia.
Qed.

Section Search.
Variable (t : list float) (sp : float).

(** [target_cdf[j] < source_percentile], the test of the binary search. *)
Let P (j : nat) : bool := (at_ t j <? sp)%float.

Hypothesis antitone : forall j k, (j <= k)%nat -> (k <= 255)%nat -> P k = true -> P j = true.

Lemma lower_bound_spec (fuel : nat) : forall low high,
  (high - low < fuel)%nat -> (low <= high)%nat -> (high <= 255)%nat ->
  (forall j, (j < low)%nat -> P j = true) ->
  (high = 255%nat \/ P high = false) ->
  let r := lower_bound fuel t sp low high in
  (low <= r <= high)%nat /\ (forall j, (j < r)%nat -> P j = true) /\
  (r = 255%nat \/ P r = false).
Proof.
  induction fuel as [|fuel IH]; intros low high Hf Hlh Hh Hlow Hhigh; cbv zeta.
  - lia.
  - cbn [lower_bound].
    destruct (low <? high)%nat eqn:E.
    + apply Nat.ltb_lt in E.
      assert (Hm1 : (low <= (low + high) / 2)%nat) by
        (apply Nat.div_le_lower_bound; lia).
      assert (Hm2 : ((low + high) / 2 < high)%nat) by
        (apply Nat.Div0.div_lt_upper_bound; lia).
      cbv zeta.
      destruct (at_ t ((low + high) / 2) <? sp)%float eqn:Pm.
      * destruct (IH ((low + high) / 2 + 1)%nat high ltac:(lia) ltac:(lia) Hh)
          as (R1 & R2 & R3); [| exact Hhigh |].
        { intros j Hj. apply (antitone j ((low + high) / 2)); [lia|lia|exact Pm]. }
        split; [lia|]. split; assumption.
      * destruct (IH low ((low + high) / 2) ltac:(lia) ltac:(lia) ltac:(lia) Hlow)
          as (R1 & R2 & R3); [right; exact Pm|].
        split; [lia|]. split; assumption.
    + apply Nat.ltb_ge in E. assert (low = high) by lia. subst.
      split; [lia|]. split; assumption.
Qed.

Lemma lower_bound_full :
  let r := lower_bound 256 t sp 0 255 in
  (r <= 255)%nat /\ (forall j, (j < r)%nat -> P j = true) /\
  (r = 255%nat \/ P r = false).
Proof.
  destruct (lower_bound_spec 256 0 255 ltac:(lia) ltac:(lia) ltac:(lia)
              ltac:(intros; lia) (or_introl eq_refl)) as (R1 & R2 & R3).
  split; [lia|]. split; assumption.
Qed.

End Search.

(** A CDF non-decreasing between neighbours is non-decreasing. *)
Lemma mono_all (c : list float) :
  (forall j, (j < 255)%nat -> (at_ c j <=? at_ c (S j))%float = true) ->
  forall j k, (j < k)%nat -> (k <= 255)%nat -> (at_ c j <=? at_ c k)%float = true.
Proof.
  intros H j k Hjk. induction Hjk as [|k Hjk IH]; intros Hk.
  - apply H; lia.
  - apply (leb_trans _ (at_ c k)); [apply IH; lia|apply H; lia].
Qed.

Lemma antitone_of_mono (c : list float) (sp : float) :
  (forall j, (j < 255)%nat -> (at_ c j <=? at_ c (S j))%float = true) ->
  forall j k, (j <= k)%nat -> (k <= 255)%nat ->
  (at_ c k <? sp)%float = true -> (at_ c j <? sp)%float = true.
Proof.
  intros H j k Hjk Hk Pk.
  destruct (Nat.eq_dec j k) as [->|Hne]; [exact Pk|].
  apply (leb_ltb_trans _ (at_ c k)); [apply mono_all; [exact H|lia|lia]|exact Pk].
Qed.

Lemma eqb_refl_mono (c : list float) (i : nat) :
  (forall j, (j < 255)%nat -> (at_ c j <=? at_ c (S j))%float = true) ->
  (i <= 255)%nat -> (at_ c i =? at_ c i)%float = true.
Proof.
  intros H Hi. destruct (Nat.eq_dec i 255) as [->|Hne].
  - exact (proj2 (leb_eqb_refl _ _ (H 254%nat ltac:(lia)))).
  - exact (proj1 (leb_eqb_refl _ _ (H i ltac:(lia)))).
Qed.

(** Counterexample to C5: two identical 2 x 1 rasters, one black and one
    white pixel.  Both CDFs are [[0.5; ...; 0.5; 1.0]]; level 1 (an empty
    bin) is mapped to 0, not to 1. *)
Lemma tone_curve_identity_counterexample :
  let img := mk_image 2 1 [(Byte.x00, Byte.x00, Byte.x00); (Byte.xff, Byte.xff, Byte.xff)] in
  let c := histogram_to_cdf (fst (fst (compute_rgb_histograms_sampled img))) in
  nth 1 (build_tone_curve c c) 0%nat = 0%nat.
Proof. vm_compute. reflexivity. Qed.

(** C5 (amended): when source and target CDF are the same non-decreasing
    CDF [c], level [i] is mapped to the least level [j] whose CDF value
    equals [c[i]]: [j <= i], [c[j] = c[i]], and every level below [j] has a
    smaller CDF value.  Hence [curve[i] = i] exactly when [i = 0] or
    [c[i-1] < c[i]]; the curve is the identity only where the CDF strictly
    increases (an empty histogram bin above 0 breaks it). *)
Theorem tone_curve_self_match (c : list float)
    (Hmono : forall j, (j < 255)%nat -> (at_ c j <=? at_ c (S j))%float = true)
    (i : nat) (Hi : (i < 256)%nat) :
  let j := nth i (build_tone_curve c c) 0%nat in
  (j <= i)%nat /\ (at_ c j =? at_ c i)%float = true /\
  (forall k, (k < j)%nat -> (at_ c k <? at_ c i)%float = true) /\
  (j = i <-> i = 0%nat \/ (at_ c (i - 1) <? at_ c i)%float = true).
Proof.
  cbv zeta. rewrite nth_build_tone_curve by exact Hi.
  pose proof (antitone_of_mono c (at_ c i) Hmono) as Hanti.
  destruct (lower_bound_full c (at_ c i) Hanti) as (R1 & R2 & R3).
  set (r := lower_bound 256 c (at_ c i) 0 255) in *.
  assert (Hri : (r <= i)%nat).
  { destruct (Nat.le_gt_cases r i) as [L|L]; [exact L|].
    specialize (R2 i L). rewrite ltb_irrefl in R2. discriminate. }
  assert (Heq : (at_ c r =? at_ c i)%float = true).
  { destruct (Nat.eq_dec r i) as [->|Hne].
    - apply eqb_refl_mono; [exact Hmono|lia].
    - apply leb_not_ltb_eqb.
      + apply mono_all; [exact Hmono|lia|lia].
      + destruct R3 as [R3|R3]; [lia|exact R3]. }
  assert (Hent : tone_entry c c i = r).
  { unfold tone_entry. fold r.
    assert (Hs : (at_ c r =? at_ c i)%float = true) by exact Heq.
    rewrite (abs_sub_not_lt_eq (at_ c i) (at_ c (r - 1)) (at_ c r) Hs).
    rewrite andb_false_r. reflexivity. }
  rewrite Hent.
  split; [exact Hri|]. split; [exact Heq|]. split; [exact R2|].
  split.
  - intros ->. destruct i as [|i]; [left; reflexivity|right].
    apply R2. lia.
  - intros [->|Hlt]; [lia|].
    destruct (Nat.eq_dec r i) as [E|Hne]; [exact E|exfalso].
    assert (Pr : (at_ c r <? at_ c i)%float = true)
      by (apply (Hanti r (i - 1)); [lia|lia|exact Hlt]).
    rewrite (eqb_sym_ltb _ _ _ Heq), ltb_irrefl in Pr. discriminate.
Qed.

Lemma tone_curve_self_match_witness :
  let c := histogram_to_cdf (1%N :: repeat 0%N 254 ++ [1%N])%list in
  (forall j, (j < 255)%nat -> (at_ c j <=? at_ c (S j))%float = true) /\
  (1 < 256)%nat /\
  let j := nth 1 (build_tone_curve c c) 0%nat in
  (j <= 1)%nat /\ (at_ c j =? at_ c 1)%float = true /\
  (forall k, (k < j)%nat -> (at_ c k <? at_ c 1)%float = true) /\
  (j = 1%nat <-> 1%nat = 0%nat \/ (at_ c (1 - 1) <? at_ c 1)%float = true).
Proof.
  cbv zeta.
  assert (Hm : forall j, (j < 255)%nat ->
     (at_ (histogram_to_cdf (1%N :: repeat 0%N 254 ++ [1%N])%list) j <=?
      at_ (histogram_to_cdf (1%N :: repeat 0%N 254 ++ [1%N])%list) (S j))%float = true).
  { apply (forall_lt_of_forallb
             (fun j => at_ (histogram_to_cdf (1%N :: repeat 0%N 254 ++ [1%N])%list) j <=?
                       at_ (histogram_to_cdf (1%N :: repeat 0%N 254 ++ [1%N])%list) (S j))%float).
    vm_compute. reflexivity. }
  split; [exact Hm|]. split; [lia|].
  exact (tone_curve_self_match _ Hm 1 ltac:(lia)).
Defined.

End ToneProps.

(** ** The rounding of [SpecFloat], in closed form *)

Module RoundingProps.
Import Rounding FloatOrder.
Local Open Scope Z_scope.

Lemma digits2_bounds (p : positive) :
  2 ^ (Zpos (digits2_pos p) - 1) <= Zpos p < 2 ^ Zpos (digits2_pos p).
Proof.
  induction p as [p IH|p IH|]; [| |simpl; lia];
    cbn [digits2_pos]; rewrite Pos2Z.inj_succ;
    [rewrite (Pos2Z.inj_xI p)|rewrite (Pos2Z.inj_xO p)];
    set (d := Zpos (digits2_pos p)) in *;
    assert (Hd : 1 <= d) by (unfold d; lia);
    replace (Z.succ d - 1) with (Z.succ (d - 1)) by lia;
    rewrite !Z.pow_succ_r by lia;
    replace (Z.succ (d - 1)) with d by lia; lia.
Qed.

Lemma pow2_le_mono (a b : Z) : a <= b -> 2 ^ a <= 2 ^ b.
Proof.
  intros H. destruct (Z_lt_le_dec a 0).
  - rewrite (Z.pow_neg_r 2 a) by lia. apply Z.pow_nonneg; lia.
  - apply Z.pow_le_mono_r; lia.
Qed.

Lemma digits_unique (p : positive) (D : Z) :
  2 ^ (D - 1) <= Zpos p < 2 ^ D -> Zpos (digits2_pos p) = D.
Proof.
  intros [H1 H2]. pose proof (digits2_bounds p) as [B1 B2].
  set (d := Zpos (digits2_pos p)) in *.
  destruct (Z.lt_trichotomy d D) as [L|[E|L]]; [exfalso| exact E |exfalso].
  - pose proof (pow2_le_mono d (D - 1) ltac:(lia)). lia.
  - pose proof (pow2_le_mono D (d - 1) ltac:(lia)). lia.
Qed.

Lemma digits_le (p1 p2 : positive) :
  Zpos p1 <= Zpos p2 -> Zpos (digits2_pos p1) <= Zpos (digits2_pos p2).
Proof.
  intros H. pose proof (digits2_bounds p1). pose proof (digits2_bounds p2).
  destruct (Z_le_gt_dec (Zpos (digits2_pos p1)) (Zpos (digits2_pos p2))) as [L|L]; [exact L|].
  pose proof (pow2_le_mono (Zpos (digits2_pos p2)) (Zpos (digits2_pos p1) - 1) ltac:(lia)).
  lia.
Qed.

Lemma shr_1_spec (z : Z) (r s : bool) : 0 <= z ->
  shr_1 (Build_shr_record z r s) = Build_shr_record (z / 2) (Z.odd z) (r || s).
Proof.
  intros Hz. rewrite <- Z.div2_div.
  destruct z as [|p|p]; [reflexivity| |lia]. destruct p; reflexivity.
Qed.

Lemma iter_pos_nat {A : Type} (f : A -> A) (p : positive) (x : A) :
  iter_pos f p x = Nat.iter (Pos.to_nat p) f x.
Proof.
  revert x; induction p as [p IH|p IH|]; intros x; cbn [iter_pos].
  - rewrite IH, IH, Pos2Nat.inj_xI, <- Nat.iter_add, <- Nat.iter_succ_r.
    f_equal; lia.
  - rewrite IH, IH, Pos2Nat.inj_xO, <- Nat.iter_add. f_equal; lia.
  - reflexivity.
Qed.

Lemma mod_pow2_split (z k : Z) : 0 <= z -> 1 <= k ->
  z mod 2 ^ k = z mod 2 ^ (k - 1) + 2 ^ (k - 1) * ((z / 2 ^ (k - 1)) mod 2).
Proof.
  intros Hz Hk.
  assert (Pk : 2 ^ k = 2 ^ (k - 1) * 2).
  { replace k with (Z.succ (k - 1)) at 1 by lia. rewrite Z.pow_succ_r by lia. lia. }
  assert (P0 : 0 < 2 ^ (k - 1)) by (apply Z.pow_pos_nonneg; lia).
  pose proof (Z.div_mod z (2 ^ (k - 1)) ltac:(lia)) as D1.
  pose proof (Z.div_mod (z / 2 ^ (k - 1)) 2 ltac:(lia)) as D2.
  pose proof (Z.mod_pos_bound z (2 ^ (k - 1)) P0) as M1.
  pose proof (Z.mod_pos_bound (z / 2 ^ (k - 1)) 2 ltac:(lia)) as M2.
  symmetry. apply (Z.mod_unique z (2 ^ k) ((z / 2 ^ (k - 1)) / 2)).
  - left. rewrite Pk. nia.
  - rewrite Pk. nia.
Qed.

Lemma shr_iter_spec (z : Z) (k : nat) : 0 <= z -> (1 <= k)%nat ->
  let st := Nat.iter k shr_1 (Build_shr_record z false false) in
  shr_m st = z / 2 ^ Z.of_nat k /\
  shr_r st = Z.odd (z / 2 ^ (Z.of_nat k - 1)) /\
  shr_s st = negb (z mod 2 ^ (Z.of_nat k - 1) =? 0).
Proof.
  intros Hz Hk. induction Hk as [|k Hk IH]; cbv zeta.
  - cbn [Nat.iter]. rewrite shr_1_spec by exact Hz. cbn [shr_m shr_r shr_s].
    rewrite Z.div_1_r, Z.mod_1_r. auto.
  - cbv zeta in IH. rewrite Nat.iter_succ.
    destruct (Nat.iter k shr_1 (Build_shr_record z false false)) as [m r s].
    simpl in IH. destruct IH as (Hm & Hr & Hs).
    assert (P0 : 0 < 2 ^ Z.of_nat k) by (apply Z.pow_pos_nonneg; lia).
    rewrite shr_1_spec by (rewrite Hm; apply Z.div_pos; lia). cbn [shr_m shr_r shr_s].
    rewrite Nat2Z.inj_succ, Z.pow_succ_r by lia.
    replace (Z.succ (Z.of_nat k) - 1) with (Z.of_nat k) by lia.
    split; [rewrite Hm, Z.div_div by lia; f_equal; lia|].
    split; [rewrite Hm; reflexivity|].
    rewrite Hr, Hs, (mod_pow2_split z (Z.of_nat k)) by lia.
    rewrite Zmod_odd.
    assert (P1 : 0 < 2 ^ (Z.of_nat k - 1)) by (apply Z.pow_pos_nonneg; lia).
    pose proof (Z.mod_pos_bound z (2 ^ (Z.of_nat k - 1)) P1).
    set (A := z mod 2 ^ (Z.of_nat k - 1)) in *.
    destruct (Z.odd (z / 2 ^ (Z.of_nat k - 1))); destruct (Z.eqb_spec A 0);
      rewrite ?Z.mul_1_r, ?Z.mul_0_r; simpl;
      [destruct (Z.eqb_spec (A + 2 ^ (Z.of_nat k - 1)) 0)
      |destruct (Z.eqb_spec (A + 2 ^ (Z.of_nat k - 1)) 0)
      |destruct (Z.eqb_spec (A + 0) 0)
      |destruct (Z.eqb_spec (A + 0) 0)]; simpl; try reflexivity; lia.
Qed.

Lemma round_shr_spec (z : Z) (k : nat) : 0 <= z -> (1 <= k)%nat ->
  let st := Nat.iter k shr_1 (Build_shr_record z false false) in
  round_nearest_even (shr_m st) (loc_of_shr_record st) = rne z (Z.of_nat k).
Proof.
  intros Hz Hk. cbv zeta.
  destruct (shr_iter_spec z k Hz Hk) as (Hm & Hr & Hs).
  destruct (Nat.iter k shr_1 (Build_shr_record z false false)) as [m r s].
  cbn [shr_m shr_r shr_s] in *. subst m r s.
  unfold rne. rewrite (mod_pow2_split z (Z.of_nat k)) by lia. rewrite Zmod_odd.
  assert (P1 : 0 < 2 ^ (Z.of_nat k - 1)) by (apply Z.pow_pos_nonneg; lia).
  assert (Pk : 2 ^ Z.of_nat k = 2 * 2 ^ (Z.of_nat k - 1)).
  { replace (Z.of_nat k) with (Z.succ (Z.of_nat k - 1)) at 1 by lia.
    rewrite Z.pow_succ_r by lia. reflexivity. }
  pose proof (Z.mod_pos_bound z (2 ^ (Z.of_nat k - 1)) P1).
  set (A := z mod 2 ^ (Z.of_nat k - 1)) in *.
  set (P := 2 ^ (Z.of_nat k - 1)) in *.
  set (q := z / 2 ^ Z.of_nat k).
  rewrite Pk.
  destruct (Z.odd (z / P)); destruct (Z.eqb_spec A 0); cbn [negb loc_of_shr_record];
    rewrite ?Z.mul_1_r, ?Z.mul_0_r;
    [destruct (Z.compare_spec (2 * (A + P)) (2 * P))
    |destruct (Z.compare_spec (2 * (A + P)) (2 * P))
    |destruct (Z.compare_spec (2 * (A + 0)) (2 * P))
    |destruct (Z.compare_spec (2 * (A + 0)) (2 * P))];
    cbn [round_nearest_even]; try reflexivity; try lia.
Qed.

Lemma rne_0 (z : Z) : rne z 0 = z.
Proof.
  unfold rne. rewrite Z.pow_0_r, Z.div_1_r, Z.mod_1_r. reflexivity.
Qed.

Lemma rne_bounds (n k : Z) : 0 <= k ->
  n / 2 ^ k <= rne n k <= n / 2 ^ k + 1.
Proof.
  intros Hk. unfold rne.
  destruct (_ ?= _); [destruct (Z.even _)|..]; lia.
Qed.

Lemma rne_mono (n1 n2 k : Z) : 0 <= k -> n1 <= n2 -> rne n1 k <= rne n2 k.
Proof.
  intros Hk Hn.
  assert (P : 0 < 2 ^ k) by (apply Z.pow_pos_nonneg; lia).
  pose proof (Z.div_le_mono n1 n2 (2 ^ k) P Hn) as Hq.
  pose proof (rne_bounds n1 k Hk). pose proof (rne_bounds n2 k Hk).
  destruct (Z.eq_dec (n1 / 2 ^ k) (n2 / 2 ^ k)) as [E|E]; [|lia].
  pose proof (Z.div_mod n1 (2 ^ k) ltac:(lia)).
  pose proof (Z.div_mod n2 (2 ^ k) ltac:(lia)).
  pose proof (Z.mod_pos_bound n1 (2 ^ k) P). pose proof (Z.mod_pos_bound n2 (2 ^ k) P).
  unfold rne. rewrite E.
  assert (R : n1 mod 2 ^ k <= n2 mod 2 ^ k) by nia.
  destruct (Z.compare_spec (2 * (n1 mod 2 ^ k)) (2 ^ k));
    destruct (Z.compare_spec (2 * (n2 mod 2 ^ k)) (2 ^ k));
    try destruct (Z.even (n2 / 2 ^ k)); lia.
Qed.

Lemma rne_scale (n j k : Z) : 0 <= j -> 0 <= k ->
  rne (n * 2 ^ j) (k + j) = rne n k.
Proof.
  intros Hj Hk. unfold rne.
  assert (Pj : 0 < 2 ^ j) by (apply Z.pow_pos_nonneg; lia).
  assert (Pk : 0 < 2 ^ k) by (apply Z.pow_pos_nonneg; lia).
  rewrite Z.pow_add_r by lia.
  rewrite Z.div_mul_cancel_r, Z.mul_mod_distr_r by lia.
  replace (2 * (n mod 2 ^ k * 2 ^ j)) with ((2 * (n mod 2 ^ k)) * 2 ^ j) by ring.
  destruct (Z.compare_spec (2 * (n mod 2 ^ k)) (2 ^ k)) as [C|C|C].
  - rewrite C, Z.compare_refl. reflexivity.
  - replace ((2 * (n mod 2 ^ k) * 2 ^ j) ?= 2 ^ k * 2 ^ j) with Lt; [reflexivity|].
    symmetry. apply Z.compare_lt_iff. nia.
  - replace ((2 * (n mod 2 ^ k) * 2 ^ j) ?= 2 ^ k * 2 ^ j) with Gt; [reflexivity|].
    symmetry. apply Z.compare_gt_iff. nia.
Qed.

(** [n / 2^k] fits [prec] digits when [2^D] does. *)
Lemma rne_le_pow (n k D prec : Z) : 0 <= n < 2 ^ D -> 0 <= k -> D <= prec + k -> 0 <= prec ->
  rne n k <= 2 ^ prec.
Proof.
  intros Hn Hk HD Hp.
  pose proof (rne_bounds n k Hk).
  assert (P : 0 < 2 ^ k) by (apply Z.pow_pos_nonneg; lia).
  assert (L : n / 2 ^ k < 2 ^ prec).
  { apply Z.div_lt_upper_bound; [exact P|].
    pose proof (pow2_le_mono D (prec + k) HD). rewrite Z.pow_add_r in H0 by lia. nia. }
  lia.
Qed.

Section Format.
Variables prec emax : Z.
Hypothesis Hprec : 1 <= prec.

Lemma pos_iter_xO (m p : positive) : Zpos (Pos.iter xO m p) = Zpos m * 2 ^ Zpos p.
Proof.
  induction p as [|p IH] using Pos.peano_ind.
  - simpl. lia.
  - rewrite Pos.iter_succ, Pos2Z.inj_xO, IH, Pos2Z.inj_succ, Z.pow_succ_r by lia. ring.
Qed.

Lemma shr_fexp_spec (z ez : Z) : 0 < z ->
  let F := fexp prec emax (Zdigits2 z + ez) in
  snd (shr_fexp prec emax z ez loc_Exact) = Z.max ez F /\
  round_nearest_even (shr_m (fst (shr_fexp prec emax z ez loc_Exact)))
    (loc_of_shr_record (fst (shr_fexp prec emax z ez loc_Exact))) = rne z (Z.max 0 (F - ez)).
Proof.
  intros Hz. cbv zeta. unfold shr_fexp, shr. cbn [shr_record_of_loc].
  set (F := fexp prec emax (Zdigits2 z + ez)).
  destruct (F - ez) as [|p|p] eqn:Ek; cbn [fst snd].
  - split; [lia|]. replace (Z.max 0 0) with 0 by reflexivity. rewrite rne_0. reflexivity.
  - split; [lia|]. rewrite iter_pos_nat, round_shr_spec by lia.
    rewrite positive_nat_Z. f_equal.
  - split; [lia|]. replace (Z.max 0 (Zneg p)) with 0 by reflexivity. rewrite rne_0.
    reflexivity.
Qed.

Lemma Zdigits2_pos (p : positive) : Zdigits2 (Zpos p) = Zpos (digits2_pos p).
Proof. reflexivity. Qed.

Lemma fexp_ge (e : Z) : SpecFloat.emin prec emax <= fexp prec emax e.
Proof. unfold fexp. lia. Qed.

Lemma fexp_mono (e1 e2 : Z) : e1 <= e2 -> fexp prec emax e1 <= fexp prec emax e2.
Proof. unfold fexp. lia. Qed.

Lemma binary_round_aux_spec (z ez : Z) : 0 < z ->
  let F := fexp prec emax (Zdigits2 z + ez) in
  binary_round_aux prec emax false z ez loc_Exact =
  round_fin prec emax (rne z (Z.max 0 (F - ez))) (Z.max ez F).
Proof.
  intros Hz. cbv zeta.
  pose proof (shr_fexp_spec z ez Hz) as (S1 & S2). cbv zeta in S1, S2.
  unfold binary_round_aux.
  destruct (shr_fexp prec emax z ez loc_Exact) as [mrs' e'] eqn:E1.
  cbn [fst snd] in S1, S2. rewrite S2, S1. clear S1 S2 E1 mrs' e'.
  destruct z as [|pz|pz]; try lia.
  rewrite Zdigits2_pos.
  set (F := fexp prec emax (Zpos (digits2_pos pz) + ez)).
  set (E := Z.max ez F).
  set (k := Z.max 0 (F - ez)).
  pose proof (digits2_bounds pz) as [B1 B2].
  set (D := Zpos (digits2_pos pz)) in *.
  assert (HF : D + ez - prec <= F) by (unfold F, fexp; lia).
  assert (HFe : SpecFloat.emin prec emax <= F) by apply fexp_ge.
  assert (Hq : 0 <= rne (Zpos pz) k <= 2 ^ prec).
  { split.
    - pose proof (rne_bounds (Zpos pz) k ltac:(lia)).
      pose proof (Z.div_pos (Zpos pz) (2 ^ k) ltac:(lia) ltac:(apply Z.pow_pos_nonneg; lia)).
      lia.
    - apply (rne_le_pow _ _ D); lia. }
  set (q := rne (Zpos pz) k) in *.
  assert (HE : SpecFloat.emin prec emax <= E) by lia.
  clearbody q E. clear k F HF HFe B1 B2 D.
  unfold shr_fexp, shr. cbn [shr_record_of_loc].
  unfold round_fin.
  destruct (Z.eqb_spec q 0) as [Q0|Q0].
  - subst q. cbn [Zdigits2].
    destruct (fexp prec emax (0 + E) - E) eqn:Ek.
    + reflexivity.
    + exfalso. unfold fexp in Ek. unfold SpecFloat.emin in *. lia.
    + reflexivity.
  - destruct q as [|p|p]; try lia.
    rewrite Zdigits2_pos.
    pose proof (digits2_bounds p) as [B1 B2].
    destruct (Z.eqb_spec (Zpos p) (2 ^ prec)) as [QP|QP].
    + assert (Dp : Zpos (digits2_pos p) = prec + 1).
      { apply digits_unique. rewrite QP. replace (prec + 1 - 1) with prec by lia.
        split; [lia|]. apply Z.pow_lt_mono_r; lia. }
      rewrite Dp.
      replace (fexp prec emax (prec + 1 + E) - E) with 1 by (unfold fexp, SpecFloat.emin in *; lia).
      cbn [iter_pos]. rewrite shr_1_spec by lia. cbn [shr_m].
      rewrite QP.
      assert (Hh : 2 ^ prec / 2 = 2 ^ (prec - 1)).
      { replace prec with (Z.succ (prec - 1)) at 1 by lia.
        rewrite Z.pow_succ_r by lia. rewrite Z.mul_comm, Z.div_mul by lia. reflexivity. }
      rewrite Hh. unfold mkf.
      assert (Pp : 0 < 2 ^ (prec - 1)) by (apply Z.pow_pos_nonneg; lia).
      destruct (2 ^ (prec - 1)) as [|h|h]; try lia. reflexivity.
    + assert (Dp : Zpos (digits2_pos p) <= prec).
      { destruct (Z_le_gt_dec (Zpos (digits2_pos p)) prec) as [L|L]; [exact L|].
        pose proof (pow2_le_mono prec (Zpos (digits2_pos p) - 1) ltac:(lia)). lia. }
      destruct (fexp prec emax (Zpos (digits2_pos p) + E) - E) eqn:Ek.
      * reflexivity.
      * exfalso. unfold fexp, SpecFloat.emin in *. lia.
      * reflexivity.
Qed.

Lemma binary_round_spec (m : positive) (e : Z) :
  let d := Zpos (digits2_pos m) in
  let E := fexp prec emax (d + e) in
  let e0 := Z.min e E in
  binary_round prec emax false m e = round_fin prec emax (rne (Zpos m * 2 ^ (e - e0)) (E - e0)) E.
Proof.
  cbv zeta. unfold binary_round.
  set (E := fexp prec emax (Zpos (digits2_pos m) + e)).
  unfold shl_align.
  destruct (E - e) as [|p|p] eqn:Ee.
  - rewrite binary_round_aux_spec by lia. rewrite Zdigits2_pos. fold E.
    replace (Z.min e E) with e by lia. replace (Z.max e E) with E by lia.
    rewrite Z.sub_diag, Z.pow_0_r, Z.mul_1_r. f_equal. f_equal. lia.
  - rewrite binary_round_aux_spec by lia. rewrite Zdigits2_pos. fold E.
    replace (Z.min e E) with e by lia. replace (Z.max e E) with E by lia.
    rewrite Z.sub_diag, Z.pow_0_r, Z.mul_1_r. f_equal. f_equal. lia.
  - rewrite binary_round_aux_spec by lia.
    rewrite Zdigits2_pos.
    assert (Hz : Zpos (Pos.iter xO m p) = Zpos m * 2 ^ (e - E)).
    { rewrite pos_iter_xO. f_equal. f_equal. lia. }
    pose proof (digits2_bounds m) as [B1 B2].
    assert (Dz : Zpos (digits2_pos (Pos.iter xO m p)) = Zpos (digits2_pos m) + (e - E)).
    { apply digits_unique. rewrite Hz.
      assert (P : 0 < 2 ^ (e - E)) by (apply Z.pow_pos_nonneg; lia).
      replace (Zpos (digits2_pos m) + (e - E) - 1) with ((Zpos (digits2_pos m) - 1) + (e - E))
        by lia.
      rewrite !Z.pow_add_r by lia. nia. }
    rewrite Dz. replace (Zpos (digits2_pos m) + (e - E) + E) with (Zpos (digits2_pos m) + e)
      by lia. fold E.
    replace (Z.min e E) with E by lia. replace (Z.max E E) with E by lia.
    rewrite Z.sub_diag, Z.max_id, rne_0, rne_0, Hz. reflexivity.
Qed.


Lemma pow_half : 2 ^ prec = 2 * 2 ^ (prec - 1) /\ 1 <= 2 ^ (prec - 1).
Proof.
  split.
  - replace prec with (Z.succ (prec - 1)) at 1 by lia. rewrite Z.pow_succ_r by lia. ring.
  - assert (0 < 2 ^ (prec - 1)) by (apply Z.pow_pos_nonneg; lia). lia.
Qed.

Lemma key_round_fin (q E : Z) : 0 <= q <= 2 ^ prec ->
  sf_key (round_fin prec emax q E) = round_fin_key prec emax q E.
Proof.
  intros Hq. pose proof pow_half as [P1 P2].
  unfold round_fin, round_fin_key, mkf.
  destruct (Z.eqb_spec q 0); [reflexivity|].
  destruct (Z.eqb_spec q (2 ^ prec)).
  - destruct (E + 1 <=? emax - prec); [|reflexivity].
    cbn [sf_key]. rewrite Z2Pos.id by lia. reflexivity.
  - destruct (E <=? emax - prec); [|reflexivity].
    cbn [sf_key]. rewrite Z2Pos.id by lia. reflexivity.
Qed.

Lemma round_fin_key_mono (q1 q2 E1 E2 : Z) :
  0 <= q1 <= 2 ^ prec -> 0 <= q2 <= 2 ^ prec -> E1 <= E2 ->
  (E1 = E2 -> q1 <= q2) -> (E1 < E2 -> 2 ^ (prec - 1) <= q2) ->
  ~ lexlt (round_fin_key prec emax q2 E2) (round_fin_key prec emax q1 E1).
Proof.
  intros H1 H2 HE HEq HLt. pose proof pow_half as [P1 P2].
  unfold round_fin_key.
  destruct (Z.eqb_spec q1 0), (Z.eqb_spec q2 0), (Z.eqb_spec q1 (2 ^ prec)),
    (Z.eqb_spec q2 (2 ^ prec)), (Z.leb_spec (E1 + 1) (emax - prec)),
    (Z.leb_spec (E2 + 1) (emax - prec)), (Z.leb_spec E1 (emax - prec)),
    (Z.leb_spec E2 (emax - prec)); unfold lexlt;
    destruct (Z.eq_dec E1 E2); try (specialize (HEq ltac:(assumption)));
    try (specialize (HLt ltac:(lia))); lia.
Qed.

Lemma digitsZ_bounds (N : Z) : 0 < N ->
  2 ^ (Zpos (digits2_pos (Z.to_pos N)) - 1) <= N < 2 ^ Zpos (digits2_pos (Z.to_pos N)).
Proof.
  intros HN. pose proof (digits2_bounds (Z.to_pos N)). rewrite Z2Pos.id in H by lia. exact H.
Qed.

Lemma round_val_spec (N : Z) : 0 < N ->
  let E := fexp prec emax (Zpos (digits2_pos (Z.to_pos N)) + SpecFloat.emin prec emax) in
  round_val prec emax N = round_fin prec emax (rne N (E - SpecFloat.emin prec emax)) E.
Proof.
  intros HN. cbv zeta. unfold round_val.
  destruct (Z.leb_spec N 0); [lia|].
  rewrite binary_round_spec by exact Hprec. cbv zeta.
  set (E := fexp prec emax (Zpos (digits2_pos (Z.to_pos N)) + SpecFloat.emin prec emax)).
  assert (HE : SpecFloat.emin prec emax <= E) by apply fexp_ge.
  replace (Z.min (SpecFloat.emin prec emax) E) with (SpecFloat.emin prec emax) by lia.
  rewrite Z.sub_diag, Z.pow_0_r, Z.mul_1_r, Z2Pos.id by lia. reflexivity.
Qed.

Lemma round_val_q_bounds (N : Z) : 0 < N ->
  let E := fexp prec emax (Zpos (digits2_pos (Z.to_pos N)) + SpecFloat.emin prec emax) in
  let q := rne N (E - SpecFloat.emin prec emax) in
  1 <= q <= 2 ^ prec /\ (SpecFloat.emin prec emax < E -> 2 ^ (prec - 1) <= q).
Proof.
  intros HN. cbv zeta.
  pose proof (digitsZ_bounds N HN) as [B1 B2].
  set (D := Zpos (digits2_pos (Z.to_pos N))) in *.
  set (E := fexp prec emax (D + SpecFloat.emin prec emax)).
  assert (HE1 : SpecFloat.emin prec emax <= E) by apply fexp_ge.
  assert (HE2 : D + SpecFloat.emin prec emax - prec <= E) by (unfold E, fexp; lia).
  pose proof (rne_bounds N (E - SpecFloat.emin prec emax) ltac:(lia)) as [Q1 Q2].
  assert (Hk : 0 < 2 ^ (E - SpecFloat.emin prec emax)) by (apply Z.pow_pos_nonneg; lia).
  assert (Hlow : SpecFloat.emin prec emax < E -> 2 ^ (prec - 1) <= N / 2 ^ (E - SpecFloat.emin prec emax)).
  { intros Hlt. apply Z.div_le_lower_bound; [lia|].
    assert (HEd : E = D + SpecFloat.emin prec emax - prec) by (unfold E, fexp in *; lia).
    rewrite <- Z.pow_add_r by lia.
    replace (E - SpecFloat.emin prec emax + (prec - 1)) with (D - 1) by lia. exact B1. }
  split; [split|].
  - destruct (Z.eq_dec E (SpecFloat.emin prec emax)) as [Ee|Ee].
    + assert (N / 2 ^ (E - SpecFloat.emin prec emax) = N) by
        (rewrite Ee, Z.sub_diag, Z.pow_0_r, Z.div_1_r; reflexivity). lia.
    + pose proof pow_half. specialize (Hlow ltac:(lia)). lia.
  - apply (rne_le_pow _ _ D); lia.
  - intros Hlt. specialize (Hlow Hlt). lia.
Qed.

Lemma round_val_mono (N1 N2 : Z) : 0 <= N1 <= N2 ->
  ~ lexlt (sf_key (round_val prec emax N2)) (sf_key (round_val prec emax N1)).
Proof.
  intros HN.
  destruct (Z.eq_dec N1 0) as [->|H1].
  - unfold round_val at 2. cbn [Z.leb Z.compare sf_key].
    destruct (Z.eq_dec N2 0) as [->|H2]; [cbn; lia|].
    rewrite (round_val_spec N2) by lia.
    pose proof (round_val_q_bounds N2 ltac:(lia)) as [Q _]. cbv zeta in Q.
    rewrite key_round_fin by lia.
    unfold round_fin_key. pose proof pow_half.
    destruct (Z.eqb_spec (rne N2 (fexp prec emax (Zpos (digits2_pos (Z.to_pos N2)) + SpecFloat.emin prec emax) - SpecFloat.emin prec emax)) 0); [lia|].
    destruct (Z.eqb _ _); [destruct (Z.leb _ _)|destruct (Z.leb _ _)]; cbn; lia.
  - rewrite (round_val_spec N1), (round_val_spec N2) by lia.
    pose proof (round_val_q_bounds N1 ltac:(lia)) as [Q1 R1].
    pose proof (round_val_q_bounds N2 ltac:(lia)) as [Q2 R2]. cbv zeta in Q1, R1, Q2, R2.
    rewrite !key_round_fin by lia.
    assert (Hd : Zpos (digits2_pos (Z.to_pos N1)) <= Zpos (digits2_pos (Z.to_pos N2))).
    { apply digits_le. rewrite !Z2Pos.id by lia. lia. }
    set (E1 := fexp prec emax (Zpos (digits2_pos (Z.to_pos N1)) + SpecFloat.emin prec emax)) in *.
    set (E2 := fexp prec emax (Zpos (digits2_pos (Z.to_pos N2)) + SpecFloat.emin prec emax)) in *.
    assert (HE : E1 <= E2) by (apply fexp_mono; lia).
    assert (HE1 : SpecFloat.emin prec emax <= E1) by apply fexp_ge.
    apply round_fin_key_mono; try lia.
    all: try (intros Hlt; apply R2; lia).
    intros ->. apply rne_mono; lia.
Qed.

Lemma scale_round (m : positive) (e : Z) : SpecFloat.emin prec emax <= e ->
  binary_round prec emax false m e = round_val prec emax (Zpos m * 2 ^ (e - SpecFloat.emin prec emax)).
Proof.
  intros He.
  assert (Hp : 0 < 2 ^ (e - SpecFloat.emin prec emax)) by (apply Z.pow_pos_nonneg; lia).
  assert (Hn : 0 < Zpos m * 2 ^ (e - SpecFloat.emin prec emax)) by lia.
  rewrite round_val_spec by exact Hn.
  rewrite binary_round_spec by exact Hprec. cbv zeta.
  pose proof (digits2_bounds m) as [B1 B2].
  assert (Dn : Zpos (digits2_pos (Z.to_pos (Zpos m * 2 ^ (e - SpecFloat.emin prec emax)))) =
               Zpos (digits2_pos m) + (e - SpecFloat.emin prec emax)).
  { apply digits_unique. rewrite Z2Pos.id by lia.
    replace (Zpos (digits2_pos m) + (e - SpecFloat.emin prec emax) - 1) with
      ((Zpos (digits2_pos m) - 1) + (e - SpecFloat.emin prec emax)) by lia.
    rewrite !Z.pow_add_r by lia. nia. }
  rewrite Dn.
  replace (Zpos (digits2_pos m) + (e - SpecFloat.emin prec emax) + SpecFloat.emin prec emax)
    with (Zpos (digits2_pos m) + e) by lia.
  set (E := fexp prec emax (Zpos (digits2_pos m) + e)).
  assert (HE : SpecFloat.emin prec emax <= E) by apply fexp_ge.
  f_equal.
  set (e0 := Z.min e E).
  replace (Zpos m * 2 ^ (e - SpecFloat.emin prec emax)) with
    (Zpos m * 2 ^ (e - e0) * 2 ^ (e0 - SpecFloat.emin prec emax)).
  2:{ rewrite <- Z.mul_assoc, <- Z.pow_add_r by lia. f_equal. f_equal. lia. }
  replace (E - SpecFloat.emin prec emax) with ((E - e0) + (e0 - SpecFloat.emin prec emax)) by lia.
  rewrite rne_scale by lia. reflexivity.
Qed.

Lemma round_val_exact (m : positive) (e : Z) : bounded prec emax m e = true ->
  round_val prec emax (Zpos m * 2 ^ (e - SpecFloat.emin prec emax)) = S754_finite false m e.
Proof.
  intros Hb. unfold bounded, canonical_mantissa in Hb.
  apply andb_prop in Hb as [Hc He]. apply Z.eqb_eq in Hc. apply Z.leb_le in He.
  assert (Hmin : SpecFloat.emin prec emax <= e) by (rewrite <- Hc; apply fexp_ge).
  rewrite <- scale_round by exact Hmin.
  rewrite binary_round_spec by exact Hprec. cbv zeta. rewrite Hc.
  rewrite Z.min_id, Z.sub_diag, Z.pow_0_r, Z.mul_1_r, rne_0.
  pose proof (digits2_bounds m) as [B1 B2].
  assert (Hd : Zpos (digits2_pos m) <= prec) by (unfold fexp in Hc; lia).
  assert (Hlt : Zpos m < 2 ^ prec) by (pose proof (pow2_le_mono _ _ Hd); lia).
  unfold round_fin, mkf.
  destruct (Z.eqb_spec (Zpos m) 0); [lia|].
  destruct (Z.eqb_spec (Zpos m) (2 ^ prec)); [lia|].
  destruct (Z.leb_spec e (emax - prec)); [reflexivity|lia].
Qed.

Lemma abs_binary_round (sx : bool) (m : positive) (e : Z) :
  SFabs (binary_round prec emax sx m e) = binary_round prec emax false m e.
Proof.
  unfold binary_round, binary_round_aux.
  repeat match goal with
  | |- context [match ?X with pair _ _ => _ end] => destruct X
  end.
  destruct (shr_m _); [reflexivity| |reflexivity].
  destruct (_ <=? _); reflexivity.
Qed.

Lemma shl_align_fst (m : positive) (ex ez : Z) : ez <= ex ->
  Zpos (fst (shl_align m ex ez)) = Zpos m * 2 ^ (ex - ez).
Proof.
  intros H. unfold shl_align.
  destruct (ez - ex) as [|p|p] eqn:Ed; cbn [fst].
  - replace (ex - ez) with 0 by lia. rewrite Z.pow_0_r. lia.
  - lia.
  - rewrite pos_iter_xO. f_equal. f_equal. lia.
Qed.

Lemma abs_sub_round_val (x y : spec_float) :
  nonneg_finite prec emax x = true -> nonneg_finite prec emax y = true ->
  SFabs (SFsub prec emax x y) = round_val prec emax (Z.abs (fval prec emax x - fval prec emax y)).
Proof.
  intros Hx Hy.
  destruct x as [sx|sx| |sx mx ex]; try discriminate;
  destruct y as [sy|sy| |sy my ey]; try discriminate;
  try destruct sx; try discriminate; try destruct sy; try discriminate;
  cbn [nonneg_finite] in Hx, Hy.
  1-4: reflexivity.
  1-2: cbn [SFsub SFabs fval]; rewrite Z.sub_0_l, Z.abs_opp;
    rewrite Z.abs_eq by (pose proof (Z.pow_nonneg 2 (ey - SpecFloat.emin prec emax)); lia);
    rewrite round_val_exact by exact Hy; reflexivity.
  1-2: cbn [SFsub SFabs fval]; rewrite Z.sub_0_r;
    rewrite Z.abs_eq by (pose proof (Z.pow_nonneg 2 (ex - SpecFloat.emin prec emax)); lia);
    rewrite round_val_exact by exact Hx; reflexivity.
  - assert (Mx : SpecFloat.emin prec emax <= ex).
    { unfold bounded, canonical_mantissa in Hx. apply andb_prop in Hx as [Hc _].
      apply Z.eqb_eq in Hc. rewrite <- Hc. apply fexp_ge. }
    assert (My : SpecFloat.emin prec emax <= ey).
    { unfold bounded, canonical_mantissa in Hy. apply andb_prop in Hy as [Hc _].
      apply Z.eqb_eq in Hc. rewrite <- Hc. apply fexp_ge. }
    cbn [SFsub fval cond_Zopp].
    rewrite !shl_align_fst by lia.
    set (ez := Z.min ex ey).
    assert (Hv : Zpos mx * 2 ^ (ex - SpecFloat.emin prec emax) - Zpos my * 2 ^ (ey - SpecFloat.emin prec emax) =
                 (Zpos mx * 2 ^ (ex - ez) - Zpos my * 2 ^ (ey - ez)) * 2 ^ (ez - SpecFloat.emin prec emax)).
    { rewrite Z.mul_sub_distr_r, <- !Z.mul_assoc, <- !Z.pow_add_r by lia.
      f_equal; f_equal; f_equal; lia. }
    rewrite Hv.
    assert (Hp : 0 < 2 ^ (ez - SpecFloat.emin prec emax)) by (apply Z.pow_pos_nonneg; lia).
    destruct (Zpos mx * 2 ^ (ex - ez) - Zpos my * 2 ^ (ey - ez)) as [|p|p]; cbn [binary_normalize].
    + reflexivity.
    + rewrite abs_binary_round, scale_round by lia. f_equal. lia.
    + rewrite abs_binary_round, scale_round by lia. f_equal. lia.
Qed.

Lemma fval_nonneg (x : spec_float) : 0 <= fval prec emax x.
Proof.
  destruct x as [| | |[] m e]; cbn [fval]; try lia.
  all: pose proof (Z.pow_nonneg 2 (e - SpecFloat.emin prec emax)); lia.
Qed.

Lemma bounded_facts (m : positive) (e : Z) : bounded prec emax m e = true ->
  SpecFloat.emin prec emax <= e /\ Zpos m < 2 ^ prec /\
  (SpecFloat.emin prec emax < e -> 2 ^ (prec - 1) <= Zpos m).
Proof.
  intros Hb. unfold bounded, canonical_mantissa in Hb.
  apply andb_prop in Hb as [Hc _]. apply Z.eqb_eq in Hc.
  pose proof (digits2_bounds m) as [B1 B2].
  unfold fexp in Hc.
  split; [lia|]. split.
  - assert (Hd : Zpos (digits2_pos m) <= prec) by lia.
    pose proof (pow2_le_mono _ _ Hd). lia.
  - intros Hlt. assert (Hd : Zpos (digits2_pos m) = prec) by lia.
    rewrite Hd in B1. exact B1.
Qed.

Lemma key_lt_fval (x y : spec_float) :
  nonneg_finite prec emax x = true -> nonneg_finite prec emax y = true ->
  lexlt (sf_key x) (sf_key y) -> fval prec emax x < fval prec emax y.
Proof.
  intros Hx Hy Hlt.
  destruct x as [sx|sx| |sx mx ex]; try discriminate;
  destruct y as [sy|sy| |sy my ey]; try discriminate;
  try destruct sx; try discriminate; try destruct sy; try discriminate;
  cbn [sf_key lexlt nonneg_finite fval] in *; try lia.
  - pose proof (bounded_facts _ _ Hy) as (A & _).
    pose proof (Z.pow_pos_nonneg 2 (ey - SpecFloat.emin prec emax)). lia.
  - pose proof (bounded_facts _ _ Hy) as (A & _).
    pose proof (Z.pow_pos_nonneg 2 (ey - SpecFloat.emin prec emax)). lia.
  - pose proof (bounded_facts _ _ Hx) as (Ax & Bx & _).
    pose proof (bounded_facts _ _ Hy) as (Ay & By & Cy).
    destruct Hlt as [Hlt|[_ [Hlt|[-> Hlt]]]]; [lia| |].
    + specialize (Cy ltac:(lia)). pose proof pow_half as [P1 P2].
      replace (ey - SpecFloat.emin prec emax) with ((ey - ex) + (ex - SpecFloat.emin prec emax)) by lia.
      rewrite Z.pow_add_r by lia.
      assert (2 <= 2 ^ (ey - ex)).
      { replace 2 with (2 ^ 1) at 1 by reflexivity. apply pow2_le_mono. lia. }
      pose proof (Z.pow_pos_nonneg 2 (ex - SpecFloat.emin prec emax)).
      set (A := 2 ^ (ex - SpecFloat.emin prec emax)) in *. set (B := 2 ^ (ey - ex)) in *.
      set (Hh := 2 ^ (prec - 1)) in *.
      apply (Z.lt_le_trans _ (2 * Hh * A)); [nia|].
      apply (Z.le_trans _ (Zpos my * 2 * A)); [nia|].
      rewrite Z.mul_assoc. apply Z.mul_le_mono_nonneg_r; nia.
    + pose proof (Z.pow_pos_nonneg 2 (ey - SpecFloat.emin prec emax)). nia.
Qed.

Lemma key_eq_fval (x y : spec_float) :
  nonneg_finite prec emax x = true -> nonneg_finite prec emax y = true ->
  sf_key x = sf_key y -> fval prec emax x = fval prec emax y.
Proof.
  intros Hx Hy Heq.
  destruct x as [sx|sx| |sx mx ex]; try discriminate;
  destruct y as [sy|sy| |sy my ey]; try discriminate;
  try destruct sx; try discriminate; try destruct sy; try discriminate;
  cbn [sf_key fval] in *; try reflexivity; try discriminate.
  injection Heq as -> ->. reflexivity.
Qed.

End Format.

End RoundingProps.

(** ** Monotonicity of the tone curve *)

Module MonoProps.
Import Tone FloatOrder Rounding RoundingProps ToneProps.

Lemma prec_pos : (1 <= prec)%Z.
Proof. unfold prec. lia. Qed.

(** A CDF entry [0 <= x < inf] is [+0], [-0] or a positive finite float. *)
Lemma nonneg_of_bounds (x : float) :
  ((0 <=? x) && (x <? infinity))%float = true ->
  nonneg_finite prec emax (Prim2SF x) = true.
Proof.
  intros H. apply andb_prop in H as [H1 H2].
  rewrite leb_spec in H1. rewrite ltb_spec in H2.
  pose proof (Prim2SF_valid x) as Hv.
  replace (Prim2SF 0%float) with (S754_zero false) in H1 by (vm_compute; reflexivity).
  replace (Prim2SF infinity) with (S754_infinity false) in H2 by (vm_compute; reflexivity).
  destruct (Prim2SF x) as [[]|[]| |[] m e]; cbn in H1, H2; try discriminate;
    try reflexivity.
  exact Hv.
Qed.

Lemma nonneg_not_nan (x : spec_float) :
  nonneg_finite prec emax x = true -> is_nan x = false.
Proof. destruct x; try reflexivity. discriminate. Qed.

Lemma key_lt_of_fval (x y : spec_float) :
  nonneg_finite prec emax x = true -> nonneg_finite prec emax y = true ->
  (fval prec emax x < fval prec emax y)%Z -> lexlt (sf_key x) (sf_key y).
Proof.
  intros Hx Hy Hlt.
  pose proof (lexcmp_cases (sf_key x) (sf_key y)) as C.
  destruct (lexcmp (sf_key x) (sf_key y)).
  - pose proof (key_eq_fval prec emax x y Hx Hy C). lia.
  - exact C.
  - pose proof (key_lt_fval prec emax prec_pos y x Hy Hx C). lia.
Qed.

Lemma fval_lt_of_ltb (x y : float) :
  nonneg_finite prec emax (Prim2SF x) = true -> nonneg_finite prec emax (Prim2SF y) = true ->
  (x <? y)%float = true -> (fval prec emax (Prim2SF x) < fval prec emax (Prim2SF y))%Z.
Proof.
  intros Hx Hy H. apply ltb_key in H as (_ & _ & H).
  exact (key_lt_fval prec emax prec_pos _ _ Hx Hy H).
Qed.

Lemma ltb_of_fval (x y : float) :
  nonneg_finite prec emax (Prim2SF x) = true -> nonneg_finite prec emax (Prim2SF y) = true ->
  (fval prec emax (Prim2SF x) < fval prec emax (Prim2SF y))%Z -> (x <? y)%float = true.
Proof.
  intros Hx Hy H. apply ltb_key.
  split; [apply nonneg_not_nan; exact Hx|]. split; [apply nonneg_not_nan; exact Hy|].
  exact (key_lt_of_fval _ _ Hx Hy H).
Qed.

Lemma fval_le_of_leb (x y : float) :
  nonneg_finite prec emax (Prim2SF x) = true -> nonneg_finite prec emax (Prim2SF y) = true ->
  (x <=? y)%float = true -> (fval prec emax (Prim2SF x) <= fval prec emax (Prim2SF y))%Z.
Proof.
  intros Hx Hy H. apply leb_key in H as (_ & _ & H).
  destruct (Z.le_gt_cases (fval prec emax (Prim2SF x)) (fval prec emax (Prim2SF y)))
    as [L|L]; [exact L|].
  exfalso. apply H. apply key_lt_of_fval; [exact Hy|exact Hx|lia].
Qed.

Lemma round_val_not_nan (N : Z) : is_nan (round_val prec emax N) = false.
Proof.
  destruct (Z.le_gt_cases N 0) as [L|L].
  - unfold round_val. destruct (Z.leb_spec N 0); [reflexivity|lia].
  - rewrite (round_val_spec prec emax prec_pos N) by lia. cbv zeta.
    unfold round_fin, mkf.
    repeat match goal with |- context [if ?b then _ else _] => destruct b end;
      reflexivity.
Qed.

(** [(x - y).abs()] on CDF entries: the exact distance, rounded once. *)
Lemma absdiff_round (x y : float) :
  nonneg_finite prec emax (Prim2SF x) = true -> nonneg_finite prec emax (Prim2SF y) = true ->
  Prim2SF (abs (x - y)) =
  round_val prec emax (Z.abs (fval prec emax (Prim2SF x) - fval prec emax (Prim2SF y))).
Proof.
  intros Hx Hy. rewrite abs_spec, sub_spec.
  exact (abs_sub_round_val prec emax prec_pos _ _ Hx Hy).
Qed.

Lemma lex_le_lt_trans (a b c : Z * Z * Z) : ~ lexlt b a -> lexlt b c -> lexlt a c.
Proof.
  destruct a as [[a1 a2] a3], b as [[b1 b2] b3], c as [[c1 c2] c3]; unfold lexlt; lia.
Qed.

Lemma lex_lt_le_trans (a b c : Z * Z * Z) : lexlt a b -> ~ lexlt c b -> lexlt a c.
Proof.
  destruct a as [[a1 a2] a3], b as [[b1 b2] b3], c as [[c1 c2] c3]; unfold lexlt; lia.
Qed.

(** The [low - 1] test of [build_tone_curve] is monotone in the source
    percentile: if [a = target[low - 1] < sp <= sp'] and [a <= b], and
    [a] is strictly closer than [b] to [sp'], then it is strictly closer
    to [sp]. *)
Lemma closer_mono (sp sp' a b : float) :
  nonneg_finite prec emax (Prim2SF sp) = true -> nonneg_finite prec emax (Prim2SF sp') = true ->
  nonneg_finite prec emax (Prim2SF a) = true -> nonneg_finite prec emax (Prim2SF b) = true ->
  (fval prec emax (Prim2SF a) < fval prec emax (Prim2SF sp))%Z ->
  (fval prec emax (Prim2SF sp) <= fval prec emax (Prim2SF sp'))%Z ->
  (fval prec emax (Prim2SF a) <= fval prec emax (Prim2SF b))%Z ->
  (abs (sp' - a) <? abs (sp' - b))%float = true ->
  (abs (sp - a) <? abs (sp - b))%float = true.
Proof.
  intros Nsp Nsp' Na Nb Ha Hs Hab H.
  apply ltb_key in H as (_ & _ & H). apply ltb_key.
  rewrite !absdiff_round in * by assumption.
  split; [apply round_val_not_nan|]. split; [apply round_val_not_nan|].
  pose proof (fval_nonneg prec emax (Prim2SF a)).
  set (fa := fval prec emax (Prim2SF a)) in *.
  set (fb := fval prec emax (Prim2SF b)) in *.
  set (fs := fval prec emax (Prim2SF sp)) in *.
  set (fs' := fval prec emax (Prim2SF sp')) in *.
  destruct (Z.le_gt_cases fs' fb) as [Hb|Hb].
  - pose proof (round_val_mono prec emax prec_pos (Z.abs (fs - fa)) (Z.abs (fs' - fa))
                  ltac:(lia)) as M1.
    pose proof (round_val_mono prec emax prec_pos (Z.abs (fs' - fb)) (Z.abs (fs - fb))
                  ltac:(lia)) as M2.
    exact (lex_lt_le_trans _ _ _ (lex_le_lt_trans _ _ _ M1 H) M2).
  - exfalso.
    pose proof (round_val_mono prec emax prec_pos (Z.abs (fs' - fb)) (Z.abs (fs' - fa))
                  ltac:(lia)) as M.
    exact (M H).
Qed.

(** C10: for two CDFs (non-decreasing between neighbours, every entry a
    finite non-negative [f64], as [histogram_to_cdf] produces), the tone
    curve built from them is non-decreasing: [i <= j] implies
    [curve[i] <= curve[j]]. *)
Theorem tone_curve_monotone (s t : list float)
    (Hs : forall j, (j < 255)%nat -> (at_ s j <=? at_ s (S j))%float = true)
    (Ht : forall j, (j < 255)%nat -> (at_ t j <=? at_ t (S j))%float = true)
    (Hfs : forall j, (j < 256)%nat -> ((0 <=? at_ s j) && (at_ s j <? infinity))%float = true)
    (Hft : forall j, (j < 256)%nat -> ((0 <=? at_ t j) && (at_ t j <? infinity))%float = true)
    (i j : nat) (Hij : (i <= j)%nat) (Hj : (j < 256)%nat) :
  (nth i (build_tone_curve s t) 0 <= nth j (build_tone_curve s t) 0)%nat.
Proof.
  rewrite !nth_build_tone_curve by lia.
  destruct (Nat.eq_dec i j) as [->|Hne]; [lia|].
  assert (Nt : forall k, (k < 256)%nat -> nonneg_finite prec emax (Prim2SF (at_ t k)) = true)
    by (intros k Hk; apply nonneg_of_bounds, Hft, Hk).
  pose proof (nonneg_of_bounds _ (Hfs i ltac:(lia))) as Nsp.
  pose proof (nonneg_of_bounds _ (Hfs j ltac:(lia))) as Nsp'.
  assert (Hle : (fval prec emax (Prim2SF (at_ s i)) <= fval prec emax (Prim2SF (at_ s j)))%Z)
    by (apply fval_le_of_leb; [exact Nsp|exact Nsp'|apply mono_all; [exact Hs|lia|lia]]).
  destruct (lower_bound_full t (at_ s i) (antitone_of_mono t (at_ s i) Ht)) as (A1 & A2 & A3).
  destruct (lower_bound_full t (at_ s j) (antitone_of_mono t (at_ s j) Ht)) as (B1 & B2 & B3).
  unfold tone_entry. cbv zeta.
  set (L := lower_bound 256 t (at_ s i) 0 255) in *.
  set (L' := lower_bound 256 t (at_ s j) 0 255) in *.
  assert (HLL : (L <= L')%nat).
  { destruct (Nat.le_gt_cases L L') as [LE|LT]; [exact LE|exfalso].
    pose proof (fval_lt_of_ltb _ _ (Nt L' ltac:(lia)) Nsp (A2 L' LT)) as F.
    assert (P' : (at_ t L' <? at_ s j)%float = true)
      by (apply ltb_of_fval; [apply Nt; lia|exact Nsp'|lia]).
    destruct B3 as [B3|B3]; [lia|congruence]. }
  destruct (Nat.eq_dec L L') as [E|E].
  - rewrite <- E.
    destruct (0 <? L)%nat eqn:HL0; cbn [andb]; [|lia].
    apply Nat.ltb_lt in HL0.
    destruct (abs (at_ s j - at_ t (L - 1)) <? abs (at_ s j - at_ t L))%float eqn:C'.
    + rewrite (closer_mono (at_ s i) (at_ s j) (at_ t (L - 1)) (at_ t L)); [lia| | | | | | | |].
      * exact Nsp.
      * exact Nsp'.
      * apply Nt; lia.
      * apply Nt; lia.
      * apply fval_lt_of_ltb; [apply Nt; lia|exact Nsp|apply A2; lia].
      * exact Hle.
      * apply fval_le_of_leb; [apply Nt; lia|apply Nt; lia|].
        replace L with (S (L - 1)) at 2 by lia. apply Ht. lia.
      * exact C'.
    + destruct (abs (at_ s i - at_ t (L - 1)) <? abs (at_ s i - at_ t L))%float; lia.
  - destruct ((0 <? L)%nat && _), ((0 <? L')%nat && _); lia.
Qed.

Lemma tone_curve_monotone_witness :
  let s := histogram_to_cdf (repeat 1%N 256) in
  let t := histogram_to_cdf (5%N :: repeat 0%N 250 ++ [1%N; 2%N; 3%N; 4%N; 5%N])%list in
  (forall j, (j < 255)%nat -> (at_ s j <=? at_ s (S j))%float = true) /\
  (forall j, (j < 255)%nat -> (at_ t j <=? at_ t (S j))%float = true) /\
  (forall j, (j < 256)%nat -> ((0 <=? at_ s j) && (at_ s j <? infinity))%float = true) /\
  (forall j, (j < 256)%nat -> ((0 <=? at_ t j) && (at_ t j <? infinity))%float = true) /\
  (0 <= 255)%nat /\ (255 < 256)%nat /\
  (nth 0 (build_tone_curve s t) 0 <= nth 255 (build_tone_curve s t) 0)%nat.
Proof.
  cbv zeta.
  set (s := histogram_to_cdf (repeat 1%N 256)).
  set (t := histogram_to_cdf (5%N :: repeat 0%N 250 ++ [1%N; 2%N; 3%N; 4%N; 5%N])%list).
  assert (Hs : forall j, (j < 255)%nat -> (at_ s j <=? at_ s (S j))%float = true)
    by (apply (forall_lt_of_forallb (fun j => at_ s j <=? at_ s (S j))%float);
        vm_compute; reflexivity).
  assert (Ht : forall j, (j < 255)%nat -> (at_ t j <=? at_ t (S j))%float = true)
    by (apply (forall_lt_of_forallb (fun j => at_ t j <=? at_ t (S j))%float);
        vm_compute; reflexivity).
  assert (Hfs : forall j, (j < 256)%nat -> ((0 <=? at_ s j) && (at_ s j <? infinity))%float = true)
    by (apply (forall_lt_of_forallb (fun j => (0 <=? at_ s j) && (at_ s j <? infinity))%float);
        vm_compute; reflexivity).
  assert (Hft : forall j, (j < 256)%nat -> ((0 <=? at_ t j) && (at_ t j <? infinity))%float = true)
    by (apply (forall_lt_of_forallb (fun j => (0 <=? at_ t j) && (at_ t j <? infinity))%float);
        vm_compute; reflexivity).
  split; [exact Hs|]. split; [exact Ht|]. split; [exact Hfs|]. split; [exact Hft|].
  split; [lia|]. split; [lia|].
  exact (tone_curve_monotone s t Hs Ht Hfs Hft 0 255 ltac:(lia) ltac:(lia)).
Defined.

End MonoProps.

(** ** Records of the per-item pipeline *)

Module RecordExtra.
Import Pipeline Fixtures.

Ltac case_all :=
  repeat match goal with
         | |- context [match ?x with _ => _ end] => destruct x eqn:?
         | H : context [match ?x with _ => _ end] |- _ => destruct x eqn:?
         | u : unit |- _ => destruct u
         | H : (_, _) = (_, _) |- _ => inversion H; subst; clear H
         | H : Some _ = Some _ |- _ => inversion H; subst; clear H
         | H : Ok _ = Ok _ |- _ => inversion H; subst; clear H
         end.

Lemma contains_In (xs : list string) (x : string) :
  Str.contains xs x = true <-> In x xs.
Proof.
  unfold Str.contains. rewrite existsb_exists. split.
  - intros (y & Hy & E). apply String.eqb_eq in E. subst; exact Hy.
  - intros H. exists x. split; [exact H|apply String.eqb_refl].
Qed.

Lemma ascii_lower_upper (c : ascii) : Str.ascii_lower (Str.ascii_upper c) = Str.ascii_lower c.
Proof. destruct c as [[] [] [] [] [] [] [] []]; reflexivity. Qed.

Lemma lower_upper (s : string) : Str.to_lowercase (Str.to_uppercase s) = Str.to_lowercase s.
Proof. induction s as [|c s IH]; simpl; [reflexivity|]. rewrite ascii_lower_upper, IH; reflexivity. Qed.

Lemma detect_raw_extension (p : string) :
  detect_file_type p = Raw -> exists e, RPath.extension p = Some e.
Proof.
  unfold detect_file_type. destruct (RPath.extension p) as [e|]; [eauto|].
  intros H; vm_compute in H; discriminate.
Qed.

(** X1: a path is supported exactly when it has an extension whose
    lower-cased, dot-prefixed form is one of [get_supported_extensions]. *)
Theorem is_supported_image_iff (file_path : string) :
  is_supported_image file_path = true <->
  exists e, RPath.extension file_path = Some e /\
            In ("." ++ Str.to_lowercase e) get_supported_extensions.
Proof.
  unfold is_supported_image, detect_file_type, get_supported_extensions.
  destruct (RPath.extension file_path) as [e|].
  - set (x := "." ++ Str.to_lowercase e).
    split.
    + intros H. exists e. split; [reflexivity|]. fold x.
      rewrite !in_app_iff, <- !contains_In.
      destruct (Str.contains RAW_EXTENSIONS x); [tauto|].
      destruct (Str.contains HEIF_EXTENSIONS x); [tauto|].
      destruct (Str.contains STANDARD_EXTENSIONS x); [tauto|]. discriminate.
    + intros (e' & E & H). injection E as <-. fold x in H.
      rewrite !in_app_iff, <- !contains_In in H.
      destruct (Str.contains RAW_EXTENSIONS x); [reflexivity|].
      destruct (Str.contains HEIF_EXTENSIONS x); [reflexivity|].
      destruct (Str.contains STANDARD_EXTENSIONS x); [reflexivity|].
      intuition discriminate.
  - split; [intros H; vm_compute in H; discriminate|intros (e & E & _); discriminate].
Qed.

(** X2: on every path, a record reports success exactly when it carries no
    error, exactly when it carries a perceptual hash; a failed record has
    no CLIP embedding. *)
Theorem process_photo_success_fields (env : Env) (file_path relative_path thumbnails_dir : string) :
  let r := process_photo_internal env file_path relative_path thumbnails_dir in
  (success r = true <-> error r = None) /\
  (success r = true <-> phash r <> None) /\
  (success r = false -> clip_embedding r = None).
Proof.
  cbv zeta. unfold process_photo_internal, process_raw_file, process_standard_image,
    process_raw_complete_internal.
  case_all; simpl in *; intuition congruence.
Qed.

(** X3: [is_raw] holds exactly for paths classified as RAW.  For those the
    record's [raw_format] is the upper-cased extension, its MIME type is
    ["image/x-"] followed by the lower-cased extension, and [raw_error]
    repeats [error] (also when processing fails); for the other paths
    [raw_format] and [raw_error] are absent. *)
Theorem process_photo_raw_fields (env : Env) (file_path relative_path thumbnails_dir : string) :
  let r := process_photo_internal env file_path relative_path thumbnails_dir in
  (is_raw r = true <-> detect_file_type file_path = Raw) /\
  (detect_file_type file_path = Raw ->
     exists e, RPath.extension file_path = Some e /\
       raw_format r = Some (Str.to_uppercase e) /\
       mime_type r = Some ("image/x-" ++ Str.to_lowercase e) /\
       raw_error r = error r) /\
  (detect_file_type file_path <> Raw -> raw_format r = None /\ raw_error r = None).
Proof.
  cbv zeta. split; [|split].
  - unfold process_photo_internal, process_raw_file, process_standard_image.
    destruct (detect_file_type file_path); case_all; simpl; intuition congruence.
  - intros HR. destruct (detect_raw_extension _ HR) as (e & He).
    exists e. split; [exact He|].
    unfold process_photo_internal. rewrite HR. unfold process_raw_file, get_raw_format.
    rewrite He; cbn [option_map]. rewrite lower_upper.
    destruct (fs_metadata env file_path); simpl; auto.
  - intros HR. unfold process_photo_internal, process_standard_image.
    destruct (detect_file_type file_path); [congruence| | |]; case_all; simpl; auto.
Qed.

(** X4: when the file system cannot report a supported file's metadata,
    the record is a failure carrying ["Failed to read file metadata: "]
    and the file system's message, with size 0, both timestamps 0.0, no
    dimensions, hash, embedding or EXIF; nothing else of the environment
    is consulted. *)
Theorem process_photo_metadata_error (env : Env) (file_path relative_path thumbnails_dir : string)
    (e : string) :
  detect_file_type file_path <> Unsupported ->
  fs_metadata env file_path = Err e ->
  let r := process_photo_internal env file_path relative_path thumbnails_dir in
  success r = false /\ error r = Some ("Failed to read file metadata: " ++ e) /\
  size r = 0%Z /\ created_at r = 0%float /\ modified_at r = 0%float /\
  p_width r = None /\ p_height r = None /\ phash r = None /\
  clip_embedding r = None /\ exif r = None /\
  (forall env', fs_metadata env' file_path = Err e ->
     process_photo_internal env' file_path relative_path thumbnails_dir = r).
Proof.
  intros HU HM. cbv zeta. unfold process_photo_internal, process_raw_file, process_standard_image.
  destruct (detect_file_type file_path); [| | |congruence]; rewrite HM;
    repeat split; intros env' HM'; rewrite HM'; reflexivity.
Qed.

Lemma process_photo_metadata_error_witness :
  detect_file_type "a.jpg" <> Unsupported /\
  fs_metadata env_nometa "a.jpg" = Err "permission denied" /\
  error (process_photo_internal env_nometa "a.jpg" "a.jpg" "thumbs") =
    Some ("Failed to read file metadata: " ++ "permission denied").
Proof.
  assert (H1 : detect_file_type "a.jpg" <> Unsupported) by discriminate.
  split; [exact H1|]. split; [reflexivity|].
  exact (proj1 (proj2 (process_photo_metadata_error env_nometa "a.jpg" "a.jpg" "thumbs"
           "permission denied" H1 eq_refl))).
Defined.

(** X5: when a supported file's metadata is readable, the record's size,
    timestamps, name and path come from the file system and the path
    arguments whether or not decoding succeeds; the size is the byte
    length itself for any file below 2^63 bytes. *)
Theorem process_photo_metadata_ok (env : Env) (file_path relative_path thumbnails_dir : string)
    (md : Metadata) :
  detect_file_type file_path <> Unsupported ->
  fs_metadata env file_path = Ok md ->
  let r := process_photo_internal env file_path relative_path thumbnails_dir in
  size r = to_i64 (md_len md) /\
  created_at r = millis_f64 (md_created_ms md) /\
  modified_at r = millis_f64 (md_modified_ms md) /\
  name r = file_name_or_default file_path /\ path r = relative_path /\
  ((md_len md < 2 ^ 63)%N -> size r = Z.of_N (md_len md)).
Proof.
  intros HU HM. cbv zeta.
  assert (Hsz : (md_len md < 2 ^ 63)%N -> to_i64 (md_len md) = Z.of_N (md_len md)).
  { intros Hl. unfold to_i64. apply N2Z.inj_lt in Hl.
    rewrite Z.mod_small by (rewrite N2Z.inj_pow in Hl; simpl in *; lia).
    destruct (Z.ltb_spec (Z.of_N (md_len md)) (2 ^ 63)); [reflexivity|].
    rewrite N2Z.inj_pow in Hl; simpl in *; lia. }
  unfold process_photo_internal, process_raw_file, process_standard_image.
  destruct (detect_file_type file_path); [| | |congruence]; rewrite HM; case_all;
    simpl; repeat split; auto.
Qed.

Lemma process_photo_metadata_ok_witness :
  detect_file_type "a.jpg" <> Unsupported /\
  fs_metadata env0 "a.jpg" = Ok (mkMetadata 42 (Some 1000%N) (Some 2000%N)) /\
  (42 < 2 ^ 63)%N /\
  size (process_photo_internal env0 "a.jpg" "a.jpg" "thumbs") = 42%Z.
Proof.
  assert (H1 : detect_file_type "a.jpg" <> Unsupported) by discriminate.
  assert (H3 : (42 < 2 ^ 63)%N) by (vm_compute; reflexivity).
  split; [exact H1|]. split; [reflexivity|]. split; [exact H3|].
  exact (proj2 (proj2 (proj2 (proj2 (proj2 (process_photo_metadata_ok env0 "a.jpg" "a.jpg"
           "thumbs" _ H1 eq_refl)))))  H3).
Defined.

End RecordExtra.

(** ** Orientation: shape, pixels and inverses *)

Module OrientExtra.
Import OrientProps.

Section Generic.
Context {P : Type} (zero : P).

Lemma get_pixel_generate (w h : nat) (f : nat -> nat -> P) (x y : nat) :
  (x < w)%nat -> (y < h)%nat -> get_pixel zero (generate w h f) x y = f x y.
Proof.
  intros Hx Hy. unfold get_pixel. rewrite width_generate. apply nth_generate; assumption.
Qed.

Lemma pixels_generate_seq (w h : nat) (f : nat -> nat -> P) :
  pixels (generate w h f) = map (fun k => f (k mod w) (k / w)) (seq 0 (w * h)).
Proof.
  apply (nth_ext _ _ zero zero).
  - rewrite length_generate, length_map, length_seq; reflexivity.
  - intros n Hn. rewrite length_generate in Hn.
    assert (Hw : (0 < w)%nat) by (destruct w; [lia|lia]).
    rewrite (nth_indep (map (fun k => f (k mod w) (k / w)) (seq 0 (w * h))) _
               (f (0 mod w) (0 / w))) by (rewrite length_map, length_seq; lia).
    rewrite (map_nth (fun k => f (k mod w) (k / w))), seq_nth by lia. simpl.
    assert (E : n = (n / w * w + n mod w)%nat)
      by (rewrite Nat.mul_comm; apply Nat.div_mod_eq).
    rewrite E at 1. apply nth_generate.
    + apply Nat.mod_upper_bound; lia.
    + apply Nat.Div0.div_lt_upper_bound; lia.
Qed.

Lemma map_nth_seq_all (l : list P) : map (fun j => nth j l zero) (seq 0 (length l)) = l.
Proof. rewrite map_nth_seq_firstn by lia. apply firstn_all. Qed.

(** Reading a list through an injective index map on [0 .. n-1]
    permutes it. *)
Lemma perm_of_index (l : list P) (sigma : nat -> nat) :
  (forall k, (k < length l)%nat -> (sigma k < length l)%nat) ->
  (forall k1 k2, (k1 < length l)%nat -> (k2 < length l)%nat -> sigma k1 = sigma k2 -> k1 = k2) ->
  Permutation (map (fun k => nth (sigma k) l zero) (seq 0 (length l))) l.
Proof.
  intros Hr Hi.
  rewrite <- (map_map sigma (fun j => nth j l zero)).
  rewrite <- (map_nth_seq_all l) at 2.
  apply Permutation_map. apply NoDup_Permutation_bis.
  - apply NoDup_map_NoDup_ForallPairs; [|apply seq_NoDup].
    intros a b Ha Hb. apply in_seq in Ha, Hb. apply Hi; lia.
  - rewrite length_map; lia.
  - intros j Hj. apply in_map_iff in Hj. destruct Hj as (k & <- & Hk).
    apply in_seq in Hk. apply in_seq. specialize (Hr k ltac:(lia)). lia.
Qed.

(** A raster built by reading every source position once is a
    permutation of the source. *)
Lemma generate_perm (img : image P) (w' h' : nat) (a b : nat -> nat -> nat) :
  wf img -> (w' * h' = width img * height img)%nat ->
  (forall x y, (x < w')%nat -> (y < h')%nat -> (a x y < width img)%nat /\ (b x y < height img)%nat) ->
  (forall x y x2 y2, (x < w')%nat -> (y < h')%nat -> (x2 < w')%nat -> (y2 < h')%nat ->
     a x y = a x2 y2 -> b x y = b x2 y2 -> x = x2 /\ y = y2) ->
  Permutation (pixels (generate w' h' (fun x y => get_pixel zero img (a x y) (b x y)))) (pixels img).
Proof.
  intros Hwf Hn Hab Hinj. unfold wf in Hwf.
  rewrite pixels_generate_seq. unfold get_pixel.
  rewrite Hn, <- Hwf.
  set (w := width img) in *.
  apply (perm_of_index (pixels img) (fun k => b (k mod w') (k / w') * w + a (k mod w') (k / w'))%nat).
  - intros k Hk. rewrite Hwf, <- Hn in Hk.
    assert (Hw : (0 < w')%nat) by (destruct w'; [lia|lia]).
    destruct (Hab (k mod w') (k / w')) as (A & B);
      [apply Nat.mod_upper_bound; lia|apply Nat.Div0.div_lt_upper_bound; lia|].
    rewrite Hwf. nia.
  - intros k1 k2 Hk1 Hk2 E. rewrite Hwf, <- Hn in Hk1, Hk2.
    assert (Hw : (0 < w')%nat) by (destruct w'; [lia|lia]).
    assert (M1 : (k1 mod w' < w')%nat) by (apply Nat.mod_upper_bound; lia).
    assert (M2 : (k2 mod w' < w')%nat) by (apply Nat.mod_upper_bound; lia).
    assert (D1 : (k1 / w' < h')%nat) by (apply Nat.Div0.div_lt_upper_bound; lia).
    assert (D2 : (k2 / w' < h')%nat) by (apply Nat.Div0.div_lt_upper_bound; lia).
    destruct (Hab _ _ M1 D1) as (A1 & _). destruct (Hab _ _ M2 D2) as (A2 & _).
    assert (Ea : a (k1 mod w') (k1 / w') = a (k2 mod w') (k2 / w')).
    { set (a1 := a (k1 mod w') (k1 / w')) in *. set (a2 := a (k2 mod w') (k2 / w')) in *.
      set (b1 := b (k1 mod w') (k1 / w')) in *. set (b2 := b (k2 mod w') (k2 / w')) in *.
      assert (X1 : a1 = ((b1 * w + a1) mod w)%nat)
        by (apply (Nat.mod_unique _ w b1 a1); lia).
      assert (X2 : a2 = ((b2 * w + a2) mod w)%nat)
        by (apply (Nat.mod_unique _ w b2 a2); lia).
      rewrite X1, X2, E. reflexivity. }
    rewrite Ea in E. assert (Eb : b (k1 mod w') (k1 / w') = b (k2 mod w') (k2 / w')) by nia.
    destruct (Hinj _ _ _ _ M1 D1 M2 D2 Ea Eb) as (X & Y).
    rewrite (Nat.div_mod_eq k1 w'), (Nat.div_mod_eq k2 w'). rewrite X, Y. reflexivity.
Qed.

Lemma wf_generate (w h : nat) (f : nat -> nat -> P) : wf (generate w h f).
Proof. unfold wf. rewrite length_generate; reflexivity. Qed.

Ltac prim_perm :=
  apply generate_perm; [assumption|lia|intros; split; lia|intros; split; lia].

Lemma fliph_perm (img : image P) : wf img -> Permutation (pixels (fliph zero img)) (pixels img).
Proof. intros; unfold fliph; cbv zeta; prim_perm. Qed.

Lemma flipv_perm (img : image P) : wf img -> Permutation (pixels (flipv zero img)) (pixels img).
Proof. intros; unfold flipv; cbv zeta; prim_perm. Qed.

Lemma rotate90_perm (img : image P) : wf img -> Permutation (pixels (rotate90 zero img)) (pixels img).
Proof. intros; unfold rotate90; cbv zeta; prim_perm. Qed.

Lemma rotate180_perm (img : image P) : wf img -> Permutation (pixels (rotate180 zero img)) (pixels img).
Proof. intros; unfold rotate180; cbv zeta; prim_perm. Qed.

Lemma rotate270_perm (img : image P) : wf img -> Permutation (pixels (rotate270 zero img)) (pixels img).
Proof. intros; unfold rotate270; cbv zeta; prim_perm. Qed.

Ltac orient_tac Hwf :=
  unfold fliph, flipv, rotate90, rotate180, rotate270; cbv zeta;
  rewrite ?width_generate, ?height_generate;
  match goal with
  | |- _ = ?img => transitivity (generate (width img) (height img) (get_pixel zero img));
                   [|apply generate_get_pixel; exact Hwf]
  end;
  apply generate_ext; intros x y Hx Hy;
  repeat (rewrite get_pixel_generate by lia);
  f_equal; lia.

Lemma fliph_fliph (img : image P) : wf img -> fliph zero (fliph zero img) = img.
Proof. intros Hwf; orient_tac Hwf. Qed.

Lemma flipv_flipv (img : image P) : wf img -> flipv zero (flipv zero img) = img.
Proof. intros Hwf; orient_tac Hwf. Qed.

Lemma rotate180_rotate180 (img : image P) : wf img -> rotate180 zero (rotate180 zero img) = img.
Proof. intros Hwf; orient_tac Hwf. Qed.

Lemma rotate270_rotate90 (img : image P) : wf img -> rotate270 zero (rotate90 zero img) = img.
Proof. intros Hwf; orient_tac Hwf. Qed.

Lemma rotate90_rotate270 (img : image P) : wf img -> rotate90 zero (rotate270 zero img) = img.
Proof. intros Hwf; orient_tac Hwf. Qed.

Lemma transpose_twice (img : image P) :
  wf img -> fliph zero (rotate270 zero (fliph zero (rotate270 zero img))) = img.
Proof. intros Hwf; orient_tac Hwf. Qed.

Lemma transverse_twice (img : image P) :
  wf img -> fliph zero (rotate90 zero (fliph zero (rotate90 zero img))) = img.
Proof. intros Hwf; orient_tac Hwf. Qed.

End Generic.

Lemma orientation_cases (n : N) :
  n = 2%N \/ n = 3%N \/ n = 4%N \/ n = 5%N \/ n = 6%N \/ n = 7%N \/ n = 8%N \/
  (N.eqb n 2 = false /\ N.eqb n 3 = false /\ N.eqb n 4 = false /\ N.eqb n 5 = false /\
   N.eqb n 6 = false /\ N.eqb n 7 = false /\ N.eqb n 8 = false).
Proof.
  destruct (N.eq_dec n 2) as [|H2]; [tauto|]. destruct (N.eq_dec n 3) as [|H3]; [tauto|].
  destruct (N.eq_dec n 4) as [|H4]; [tauto|]. destruct (N.eq_dec n 5) as [|H5]; [tauto|].
  destruct (N.eq_dec n 6) as [|H6]; [tauto|]. destruct (N.eq_dec n 7) as [|H7]; [tauto|].
  destruct (N.eq_dec n 8) as [|H8]; [tauto|].
  right; right; right; right; right; right; right. rewrite !(proj2 (N.eqb_neq _ _)) by assumption.
  tauto.
Qed.

(** X6: for every orientation value, [apply_orientation] returns a
    well-formed raster holding exactly the source's pixels (a permutation:
    none lost, duplicated or altered); its width and height are swapped for
    orientations 5 to 8 and kept for every other value. *)
Theorem apply_orientation_permutes {P : Type} (zero : P) (img : image P) (orientation : option N) :
  wf img ->
  let r := apply_orientation zero img orientation in
  wf r /\ Permutation (pixels r) (pixels img) /\
  (if match orientation with Some n => (5 <=? n)%N && (n <=? 8)%N | None => false end
   then width r = height img /\ height r = width img
   else width r = width img /\ height r = height img).
Proof.
  intros Hwf. cbv zeta. destruct orientation as [n|]; [|split; [exact Hwf|split; [reflexivity|split; reflexivity]]].
  destruct (orientation_cases n) as [->|[->|[->|[->|[->|[->|[->|Hn]]]]]]];
    cbn [apply_orientation N.eqb Pos.eqb N.leb N.compare Pos.compare Pos.compare_cont andb].
  - split; [apply wf_generate|split; [apply fliph_perm, Hwf|split; reflexivity]].
  - split; [apply wf_generate|split; [apply rotate180_perm, Hwf|split; reflexivity]].
  - split; [apply wf_generate|split; [apply flipv_perm, Hwf|split; reflexivity]].
  - split; [apply wf_generate|split; [|split; reflexivity]].
    eapply perm_trans; [apply fliph_perm, wf_generate|apply rotate270_perm, Hwf].
  - split; [apply wf_generate|split; [apply rotate90_perm, Hwf|split; reflexivity]].
  - split; [apply wf_generate|split; [|split; reflexivity]].
    eapply perm_trans; [apply fliph_perm, wf_generate|apply rotate90_perm, Hwf].
  - split; [apply wf_generate|split; [apply rotate270_perm, Hwf|split; reflexivity]].
  - destruct Hn as (E2 & E3 & E4 & E5 & E6 & E7 & E8).
    unfold apply_orientation. rewrite E2, E3, E4, E5, E6, E7, E8.
    split; [exact Hwf|split; [reflexivity|]].
    destruct ((5 <=? n)%N && (n <=? 8)%N) eqn:R; [|split; reflexivity].
    exfalso. apply andb_true_iff in R. destruct R as (R1 & R2).
    apply N.leb_le in R1, R2. apply N.eqb_neq in E5, E6, E7, E8. lia.
Qed.

Lemma apply_orientation_permutes_witness :
  wf (mk_image 3 2 [1;2;3;4;5;6]%nat) /\
  Permutation (pixels (apply_orientation 0%nat (mk_image 3 2 [1;2;3;4;5;6]%nat) (Some 7%N)))
              [1;2;3;4;5;6]%nat.
Proof.
  assert (H : wf (mk_image 3 2 [1;2;3;4;5;6]%nat)) by reflexivity.
  split; [exact H|].
  exact (proj1 (proj2 (apply_orientation_permutes 0%nat _ (Some 7%N) H))).
Defined.

(** X7: every orientation is undone by applying its inverse code: 6 and 8
    undo each other, and every other value (2, 3, 4, 5, 7 and the codes
    that leave the raster alone) undoes itself. *)
Theorem apply_orientation_inverse {P : Type} (zero : P) (img : image P) (orientation : option N) :
  wf img ->
  let inverse := match orientation with
                 | Some n => if N.eqb n 6 then Some 8%N else if N.eqb n 8 then Some 6%N else Some n
                 | None => None
                 end in
  apply_orientation zero (apply_orientation zero img orientation) inverse = img.
Proof.
  intros Hwf. cbv zeta. destruct orientation as [n|]; [|reflexivity].
  destruct (orientation_cases n) as [->|[->|[->|[->|[->|[->|[->|Hn]]]]]]];
    cbn [apply_orientation N.eqb Pos.eqb].
  - apply fliph_fliph, Hwf.
  - apply rotate180_rotate180, Hwf.
  - apply flipv_flipv, Hwf.
  - apply transpose_twice, Hwf.
  - apply rotate270_rotate90, Hwf.
  - apply transverse_twice, Hwf.
  - apply rotate90_rotate270, Hwf.
  - destruct Hn as (E2 & E3 & E4 & E5 & E6 & E7 & E8).
    rewrite E6, E8. unfold apply_orientation.
    rewrite E2, E3, E4, E5, E6, E7, E8. reflexivity.
Qed.

Lemma apply_orientation_inverse_witness :
  wf (mk_image 3 2 [1;2;3;4;5;6]%nat) /\
  apply_orientation 0%nat (apply_orientation 0%nat (mk_image 3 2 [1;2;3;4;5;6]%nat) (Some 5%N))
    (Some 5%N) = mk_image 3 2 [1;2;3;4;5;6]%nat.
Proof.
  assert (H : wf (mk_image 3 2 [1;2;3;4;5;6]%nat)) by reflexivity.
  split; [exact H|].
  exact (apply_orientation_inverse 0%nat _ (Some 5%N) H).
Defined.

End OrientExtra.

(** ** Reported dimensions and RAW outcomes *)

Module DimsExtra.
Import Pipeline Fixtures RecordExtra.

Lemma apply_orientation_dims {P : Type} (zero : P) (img : image P) (orientation : option N) :
  let r := apply_orientation zero img orientation in
  if match orientation with Some n => (5 <=? n)%N && (n <=? 8)%N | None => false end
  then width r = height img /\ height r = width img
  else width r = width img /\ height r = height img.
Proof.
  cbv zeta. destruct orientation as [n|]; [|split; reflexivity].
  destruct (OrientExtra.orientation_cases n) as [->|[->|[->|[->|[->|[->|[->|Hn]]]]]]];
    try (split; reflexivity).
  destruct Hn as (E2 & E3 & E4 & E5 & E6 & E7 & E8).
  unfold apply_orientation. rewrite E2, E3, E4, E5, E6, E7, E8.
  destruct ((5 <=? n)%N && (n <=? 8)%N) eqn:R; [|split; reflexivity].
  exfalso. apply andb_true_iff in R. destruct R as (R1 & R2).
  apply N.leb_le in R1, R2. apply N.eqb_neq in E5, E6, E7, E8. lia.
Qed.

(** X8: a HEIF or standard image whose metadata is readable and which
    decodes (with the HEIF decoder when the path ends in [.heic]/[.heif],
    otherwise with the guessed-format reader) gives a successful record
    whose width and height are those of the decoded raster after the EXIF
    orientation: swapped for orientations 5 to 8, kept otherwise.  Its
    MIME type is ["image/heic"] on the HEIF route and ["image/"] followed by
    the lower-cased format name on the reader route. *)
Theorem process_photo_standard_dims (env : Env) (file_path relative_path thumbnails_dir : string)
    (md : Metadata) (img : DynamicImage) :
  (detect_file_type file_path = Heif \/ detect_file_type file_path = Standard) ->
  fs_metadata env file_path = Ok md ->
  (if is_heif_file file_path then decode_heif env file_path = Ok img
   else (exists f, reader_open env file_path = Ok f) /\ reader_decode env file_path = Ok img) ->
  let r := process_photo_internal env file_path relative_path thumbnails_dir in
  let orientation := match extract_exif_internal env file_path with
                     | Some e => exif_orientation e | None => None end in
  success r = true /\ error r = None /\
  (is_heif_file file_path = true -> mime_type r = Some "image/heic") /\
  (forall f, is_heif_file file_path = false -> reader_open env file_path = Ok (Some f) ->
     mime_type r = Some ("image/" ++ Str.to_lowercase f)) /\
  (if match orientation with Some n => (5 <=? n)%N && (n <=? 8)%N | None => false end
   then p_width r = Some (N.of_nat (height img)) /\ p_height r = Some (N.of_nat (width img))
   else p_width r = Some (N.of_nat (width img)) /\ p_height r = Some (N.of_nat (height img))).
Proof.
  intros HT HM HD. cbv zeta.
  assert (Hr : process_photo_internal env file_path relative_path thumbnails_dir =
               process_standard_image env file_path relative_path thumbnails_dir)
    by (unfold process_photo_internal; destruct HT as [-> | ->]; reflexivity).
  rewrite Hr. unfold process_standard_image. rewrite HM.
  pose proof (apply_orientation_dims dyn_zero img
    (match extract_exif_internal env file_path with Some e => exif_orientation e | None => None end)) as D.
  cbv zeta in D.
  destruct (is_heif_file file_path) eqn:Hh.
  - rewrite HD. simpl. split; [reflexivity|split; [reflexivity|split; [reflexivity|split]]].
    + intros f Hf; discriminate.
    + destruct (match _ with Some n => _ | None => false end);
        destruct D as (D1 & D2); rewrite D1, D2; split; reflexivity.
  - destruct HD as ((f0 & Ho) & Hd). rewrite Ho, Hd. simpl.
    split; [reflexivity|split; [reflexivity|split; [discriminate|split]]].
    + intros f _ Hf. injection Hf as ->. reflexivity.
    + destruct (match _ with Some n => _ | None => false end);
        destruct D as (D1 & D2); rewrite D1, D2; split; reflexivity.
Qed.

Lemma process_photo_standard_dims_witness :
  (detect_file_type "a.jpg" = Heif \/ detect_file_type "a.jpg" = Standard) /\
  fs_metadata env0 "a.jpg" = Ok (mkMetadata 42 (Some 1000%N) (Some 2000%N)) /\
  (if is_heif_file "a.jpg" then decode_heif env0 "a.jpg" = Ok (mk_image 2 1 [px Byte.x00; px Byte.x01])
   else (exists f, reader_open env0 "a.jpg" = Ok f) /\
        reader_decode env0 "a.jpg" = Ok (mk_image 2 1 [px Byte.x00; px Byte.x01])) /\
  p_width (process_photo_internal env0 "a.jpg" "a.jpg" "thumbs") = Some 1%N /\
  p_height (process_photo_internal env0 "a.jpg" "a.jpg" "thumbs") = Some 2%N.
Proof.
  assert (H1 : detect_file_type "a.jpg" = Heif \/ detect_file_type "a.jpg" = Standard)
    by (right; reflexivity).
  assert (H3 : if is_heif_file "a.jpg" then decode_heif env0 "a.jpg" = Ok (mk_image 2 1 [px Byte.x00; px Byte.x01])
   else (exists f, reader_open env0 "a.jpg" = Ok f) /\
        reader_decode env0 "a.jpg" = Ok (mk_image 2 1 [px Byte.x00; px Byte.x01]))
    by (simpl; split; [eexists; reflexivity|reflexivity]).
  split; [exact H1|]. split; [reflexivity|]. split; [exact H3|].
  exact (proj2 (proj2 (proj2 (proj2 (process_photo_standard_dims env0 "a.jpg" "a.jpg" "thumbs"
           _ _ H1 eq_refl H3))))).
Defined.

(** X9: a RAW file whose metadata is readable and whose read, open,
    unpack, demosaic and buffer creation succeed gives a successful
    ["converted"] record whose width and height are the demosaiced
    raster's, whatever orientation its EXIF data reports (the raster is
    rotated for the hash, thumbnails and embedding, not for the reported
    dimensions). *)
Theorem process_photo_raw_dims (env : Env) (file_path relative_path thumbnails_dir : string)
    (md : Metadata) (data bytes : list Byte.byte) (w h : N) (img : image Tone.rgb) :
  detect_file_type file_path = Raw ->
  fs_metadata env file_path = Ok md ->
  fs_read env file_path = Ok data -> raw_open env data = Ok tt -> raw_unpack env data = Ok tt ->
  raw_process env data = Ok (w, h, bytes) -> from_raw w h bytes = Some img ->
  let r := process_photo_internal env file_path relative_path thumbnails_dir in
  success r = true /\ p_width r = Some w /\ p_height r = Some h /\
  raw_status r = Some "converted".
Proof.
  intros HT HM HR HO HU HP HB. cbv zeta.
  unfold process_photo_internal. rewrite HT. unfold process_raw_file. rewrite HM.
  unfold process_raw_complete_internal. rewrite HR, HO, HU, HP, HB.
  case_all; simpl in *; try discriminate; repeat split.
Qed.

Lemma process_photo_raw_dims_witness :
  detect_file_type "a.nef" = Raw /\
  option_map exif_orientation (extract_exif_internal env0 "a.nef") = Some (Some 6%N) /\
  p_width (process_photo_internal env0 "a.nef" "a.nef" "thumbs") = Some 2%N /\
  p_height (process_photo_internal env0 "a.nef" "a.nef" "thumbs") = Some 1%N /\
  raw_status (process_photo_internal env0 "a.nef" "a.nef" "thumbs") = Some "converted".
Proof.
  split; [reflexivity|]. split; [reflexivity|].
  exact (proj2 (process_photo_raw_dims env0 "a.nef" "a.nef" "thumbs"
           (mkMetadata 42 (Some 1000%N) (Some 2000%N)) [Byte.x01]
           [Byte.x00; Byte.x00; Byte.x00; Byte.x01; Byte.x01; Byte.x01] 2 1
           (mk_image 2 1 [(Byte.x00, Byte.x00, Byte.x00); (Byte.x01, Byte.x01, Byte.x01)])
           eq_refl eq_refl eq_refl eq_refl eq_refl eq_refl eq_refl)).
Defined.

(** X10: [process_raw_complete] always carries the file's EXIF data (also
    on failure); it succeeds exactly when it carries no error, a success
    carries a perceptual hash, and a failure reports 0 x 0, no hash, no
    embedding and no histogram matching. *)
Theorem process_raw_complete_outcome (env : Env) (file_path relative_path thumbnails_dir : string) :
  let r := RawApi.process_raw_complete env file_path relative_path thumbnails_dir in
  r_exif r = extract_exif_internal env file_path /\
  (r_success r = true <-> r_error r = None) /\
  (r_success r = true -> r_phash r <> None) /\
  (r_success r = false ->
     r_width r = 0%N /\ r_height r = 0%N /\ r_phash r = None /\
     r_clip_embedding r = None /\ histogram_matched r = false).
Proof.
  cbv zeta. unfold RawApi.process_raw_complete, process_raw_complete_internal.
  case_all; simpl in *; intuition congruence.
Qed.

(** X11: [process_raw_batch_complete] returns one result per input path, in
    input order: result [i] is [process_raw_complete_internal] on
    [file_paths[i]] with [relative_paths[i]], or with the empty relative
    path when [relative_paths] is shorter. *)
Theorem process_raw_batch_complete_pointwise (env : Env) (file_paths relative_paths : list string)
    (thumbnails_dir : string) :
  let out := RawApi.process_raw_batch_complete env file_paths relative_paths thumbnails_dir in
  length out = length file_paths /\
  (forall i p, nth_error file_paths i = Some p ->
     nth_error out i =
       Some (process_raw_complete_internal env p (nth i relative_paths "") thumbnails_dir)).
Proof.
  cbv zeta; unfold RawApi.process_raw_batch_complete. split.
  - rewrite length_map; apply BatchProps.length_combine_seq.
  - intros i p Hp. rewrite nth_error_map, BatchProps.nth_error_combine_seq, Hp; simpl.
    destruct (nth_error relative_paths i) eqn:Hr.
    + rewrite (nth_error_nth _ _ _ Hr). reflexivity.
    + rewrite nth_overflow by (apply nth_error_None; exact Hr). reflexivity.
Qed.

End DimsExtra.

(** ** Embedded previews and the RAW conversion entry points *)

Module PreviewExtra.
Import Pipeline Fixtures RawApi RecordExtra.

Section MaxByKey.
Context {A : Type} (key : A -> N).

Let step := fun (acc : option A) (x : A) =>
  match acc with
  | None => Some x
  | Some m => if (key m <=? key x)%N then Some x else Some m
  end.

Lemma fold_max_some (l : list A) : forall a m,
  fold_left step l (Some a) = Some m ->
  exists pre post, a :: l = (pre ++ m :: post)%list /\
    Forall (fun x => (key x <= key m)%N) pre /\ Forall (fun x => (key m > key x)%N) post.
Proof.
  induction l as [|x l IH]; intros a m H.
  - simpl in H. injection H as <-. exists [], []. simpl. repeat split; constructor.
  - cbn [fold_left] in H.
    replace (step (Some a) x) with (if (key a <=? key x)%N then Some x else Some a) in H
      by reflexivity.
    destruct (N.leb_spec (key a) (key x)) as [Le|Gt].
    + destruct (IH x m H) as (pre & post & E & F1 & F2).
      exists (a :: pre), post. split; [rewrite E; reflexivity|split; [|exact F2]].
      constructor; [|exact F1].
      destruct pre as [|y pre]; simpl in E; injection E as E1 E2.
      * subst; exact Le.
      * subst y. inversion F1; subst. lia.
    + destruct (IH a m H) as (pre & post & E & F1 & F2).
      destruct pre as [|y pre]; simpl in E; injection E as E1 E2.
      * subst. exists [], (x :: post). split; [reflexivity|split; [constructor|constructor; [lia|exact F2]]].
      * subst y. exists (a :: x :: pre), post. split; [rewrite E2; reflexivity|split; [|exact F2]].
        inversion F1; subst. constructor; [assumption|constructor; [lia|assumption]].
Qed.

(** [max_by_key] picks an element whose key no earlier element exceeds and
    every later element's key is below: the last of the maximal ones. *)
Lemma max_by_key_some (l : list A) (m : A) :
  max_by_key key l = Some m ->
  exists pre post, l = (pre ++ m :: post)%list /\
    Forall (fun x => (key x <= key m)%N) pre /\ Forall (fun x => (key m > key x)%N) post.
Proof.
  unfold max_by_key. destruct l as [|a l]; [discriminate|].
  simpl. intros H. exact (fold_max_some l a m H).
Qed.

Lemma fold_max_some_total (l : list A) (a : A) : exists m, fold_left step l (Some a) = Some m.
Proof.
  revert a; induction l as [|x l IH]; intros a; cbn [fold_left]; [eauto|].
  replace (step (Some a) x) with (if (key a <=? key x)%N then Some x else Some a)
    by reflexivity.
  destruct (key a <=? key x)%N; apply IH.
Qed.

Lemma max_by_key_none (l : list A) : max_by_key key l = None <-> l = [].
Proof.
  unfold max_by_key. destruct l as [|a l]; [split; reflexivity|].
  simpl. destruct (fold_max_some_total l a) as (m & Hm). fold step. rewrite Hm.
  split; discriminate.
Qed.

End MaxByKey.

(** X12: the preview the pipeline matches against is the largest embedded
    JPEG: when [extract_preview_with_jpeg] yields a raster and bytes, the
    bytes are those of a JPEG thumbnail [t] with no JPEG thumbnail before
    it of larger area and every JPEG thumbnail after it of smaller area
    (the last one of maximal area), and the raster is those bytes decoded
    and converted to RGB. *)
Theorem extract_preview_largest_jpeg (env : Env) (raw : list Byte.byte)
    (img : image Tone.rgb) (bytes : list Byte.byte) :
  extract_preview_with_jpeg env raw = Some (img, bytes) ->
  exists thumbs pre t post decoded,
    raw_extract_thumbs env raw = Ok thumbs /\
    filter th_is_jpeg thumbs = (pre ++ t :: post)%list /\
    th_data t = bytes /\
    Forall (fun t' => (th_width t' * th_height t' <= th_width t * th_height t)%N) pre /\
    Forall (fun t' => (th_width t' * th_height t' < th_width t * th_height t)%N) post /\
    load_from_memory env bytes = Ok decoded /\ img = into_rgb8 env decoded.
Proof.
  unfold extract_preview_with_jpeg.
  destruct (raw_extract_thumbs env raw) as [thumbs|e]; [|discriminate].
  destruct (max_by_key _ (filter th_is_jpeg thumbs)) as [t|] eqn:Hm; [|discriminate].
  destruct (load_from_memory env (th_data t)) as [d|e] eqn:Hl; [|discriminate].
  intros H. injection H as <- <-.
  destruct (max_by_key_some _ _ _ Hm) as (pre & post & E & F1 & F2).
  exists thumbs, pre, t, post, d. repeat split; auto.
  eapply Forall_impl; [|exact F2]. intros a Ha; simpl in Ha; lia.
Qed.

Lemma extract_preview_largest_jpeg_witness :
  extract_preview_with_jpeg env_raw800 [Byte.x01] = Some (mk_image 800 800 [], [Byte.xff; Byte.xd8]) /\
  exists thumbs pre t post decoded,
    raw_extract_thumbs env_raw800 [Byte.x01] = Ok thumbs /\
    filter th_is_jpeg thumbs = (pre ++ t :: post)%list /\
    th_data t = [Byte.xff; Byte.xd8] /\
    Forall (fun t' => (th_width t' * th_height t' <= th_width t * th_height t)%N) pre /\
    Forall (fun t' => (th_width t' * th_height t' < th_width t * th_height t)%N) post /\
    load_from_memory env_raw800 [Byte.xff; Byte.xd8] = Ok decoded /\
    mk_image 800 800 [] = into_rgb8 env_raw800 decoded.
Proof.
  assert (H : extract_preview_with_jpeg env_raw800 [Byte.x01] =
              Some (mk_image 800 800 [], [Byte.xff; Byte.xd8])) by reflexivity.
  split; [exact H|]. exact (extract_preview_largest_jpeg env_raw800 _ _ _ H).
Defined.

(** X13: once a RAW file reads and opens, [extract_raw_preview] returns the
    bytes of the same JPEG thumbnail the pipeline matches against whenever
    that one decodes, and it returns no preview exactly when the thumbnails
    cannot be extracted or none of them is a JPEG (a JPEG that does not
    decode is still returned). *)
Theorem extract_raw_preview_agrees (env : Env) (jpeg_encode : image Tone.rgb -> N -> result (list Byte.byte) string)
    (file_path : string) (data : list Byte.byte) :
  fs_read env file_path = Ok data -> raw_open env data = Ok tt ->
  (forall img bytes, extract_preview_with_jpeg env data = Some (img, bytes) ->
     extract_raw_preview env file_path = Ok (Some bytes)) /\
  (extract_raw_preview env file_path = Ok None <->
     (exists e, raw_extract_thumbs env data = Err e) \/
     (exists thumbs, raw_extract_thumbs env data = Ok thumbs /\
                     forall t, In t thumbs -> th_is_jpeg t = false)).
Proof.
  intros HR HO. unfold extract_raw_preview, read_file. rewrite HR, HO. split.
  - intros img bytes. unfold extract_preview_with_jpeg.
    destruct (raw_extract_thumbs env data); [|discriminate].
    destruct (max_by_key _ _); [|discriminate].
    destruct (load_from_memory env _); [|discriminate].
    intros H; injection H as _ <-. reflexivity.
  - destruct (raw_extract_thumbs env data) as [thumbs|e] eqn:Ht.
    + split.
      * intros H. right. exists thumbs. split; [reflexivity|].
        injection H as H. destruct (max_by_key _ _) eqn:Hm; [discriminate|].
        apply max_by_key_none in Hm. intros t Hin.
        destruct (th_is_jpeg t) eqn:Hj; [|reflexivity].
        assert (In t (filter th_is_jpeg thumbs)) by (apply filter_In; auto).
        rewrite Hm in H0; destruct H0.
      * intros [(e & He)|(thumbs' & He & Hall)]; [discriminate|].
        injection He as <-.
        assert (Hf : filter th_is_jpeg thumbs = []).
        { destruct (filter th_is_jpeg thumbs) as [|t l] eqn:Hf; [reflexivity|].
          assert (Hin : In t (filter th_is_jpeg thumbs)) by (rewrite Hf; left; reflexivity).
          apply filter_In in Hin. destruct Hin as (Hin & Hj). rewrite Hall in Hj by exact Hin.
          discriminate. }
        rewrite Hf. reflexivity.
    + split; [intros _; left; eauto|reflexivity].
Qed.

Lemma extract_raw_preview_agrees_witness :
  fs_read env_raw800 "a.nef" = Ok [Byte.x01] /\ raw_open env_raw800 [Byte.x01] = Ok tt /\
  extract_raw_preview env_raw800 "a.nef" = Ok (Some [Byte.xff; Byte.xd8]).
Proof.
  split; [reflexivity|]. split; [reflexivity|].
  exact (proj1 (extract_raw_preview_agrees env_raw800 (fun _ _ => Ok []) "a.nef" [Byte.x01]
           eq_refl eq_refl) (mk_image 800 800 []) [Byte.xff; Byte.xd8] eq_refl).
Defined.

(** X14: without an embedded preview whose shorter side reaches 800
    pixels, [process_raw_with_histogram_matching] returns what
    [process_raw_neutral_only] returns (the same error, or the same
    dimensions and JPEG), only carrying the preview's bytes when there is
    a smaller preview; with such a preview every success reports
    [histogram_matched] and carries the preview's bytes. *)
Theorem histogram_matching_vs_neutral (env : Env)
    (jpeg_encode : image Tone.rgb -> N -> result (list Byte.byte) string)
    (file_path : string) (data : list Byte.byte) :
  fs_read env file_path = Ok data ->
  let hm := process_raw_with_histogram_matching env jpeg_encode file_path in
  let neutral := process_raw_neutral_only env jpeg_encode file_path in
  (extract_preview_with_jpeg env data = None -> hm = neutral) /\
  (forall img bytes, extract_preview_with_jpeg env data = Some (img, bytes) ->
     (Nat.min (width img) (height img) < 800)%nat ->
     hm = match neutral with
          | Ok r => Ok (mkRPR (rp_width r) (rp_height r) (jpeg_data r) (Some bytes) false)
          | Err e => Err e
          end) /\
  (forall img bytes r, extract_preview_with_jpeg env data = Some (img, bytes) ->
     (800 <= Nat.min (width img) (height img))%nat -> hm = Ok r ->
     rp_histogram_matched r = true /\ preview_jpeg r = Some bytes).
Proof.
  intros HR. cbv zeta.
  unfold process_raw_with_histogram_matching, process_raw_neutral_only, read_file.
  rewrite HR. split; [|split].
  - intros HE. rewrite HE. unfold tone_match_decision.
    destruct (raw_open env data); [|reflexivity].
    destruct (process_raw_to_rgb env data); [|reflexivity].
    destruct (encode_jpeg_rgb jpeg_encode _ 90); reflexivity.
  - intros img bytes HE Hs. rewrite HE. unfold tone_match_decision.
    apply Nat.leb_gt in Hs. rewrite Hs.
    destruct (raw_open env data); [|reflexivity].
    destruct (process_raw_to_rgb env data); [|reflexivity].
    destruct (encode_jpeg_rgb jpeg_encode _ 90); reflexivity.
  - intros img bytes r HE Hs. rewrite HE. unfold tone_match_decision.
    apply Nat.leb_le in Hs. rewrite Hs.
    destruct (raw_open env data); [|discriminate].
    destruct (process_raw_to_rgb env data); [|discriminate].
    destruct (encode_jpeg_rgb jpeg_encode _ 90); [|discriminate].
    intros H; injection H as <-. split; reflexivity.
Qed.

Lemma histogram_matching_vs_neutral_witness :
  fs_read env0 "a.nef" = Ok [Byte.x01] /\
  extract_preview_with_jpeg env0 [Byte.x01] = None /\
  process_raw_with_histogram_matching env0 (fun _ _ => Ok [Byte.xff]) "a.nef" =
    process_raw_neutral_only env0 (fun _ _ => Ok [Byte.xff]) "a.nef".
Proof.
  assert (H : extract_preview_with_jpeg env0 [Byte.x01] = None) by reflexivity.
  split; [reflexivity|]. split; [exact H|].
  exact (proj1 (histogram_matching_vs_neutral env0 (fun _ _ => Ok [Byte.xff]) "a.nef" [Byte.x01]
           eq_refl) H).
Defined.

(** X15: the neutral and half-size conversions never report histogram
    matching and never carry a preview; on success they report the
    dimensions of the demosaiced raster (full-size or half-size). *)
Theorem neutral_and_half_size_results (env : Env)
    (jpeg_encode : image Tone.rgb -> N -> result (list Byte.byte) string)
    (raw_process_half_size : list Byte.byte -> result (N * N * list Byte.byte) string)
    (file_path : string) :
  (forall r, process_raw_neutral_only env jpeg_encode file_path = Ok r ->
     rp_histogram_matched r = false /\ preview_jpeg r = None /\
     exists data w h bytes, fs_read env file_path = Ok data /\
       raw_process env data = Ok (w, h, bytes) /\ rp_width r = w /\ rp_height r = h) /\
  (forall r, process_raw_half_size env jpeg_encode raw_process_half_size file_path = Ok r ->
     rp_histogram_matched r = false /\ preview_jpeg r = None /\
     exists data w h bytes, fs_read env file_path = Ok data /\
       raw_process_half_size data = Ok (w, h, bytes) /\ rp_width r = w /\ rp_height r = h).
Proof.
  split; intros r.
  - unfold process_raw_neutral_only, read_file, process_raw_to_rgb.
    destruct (fs_read env file_path) as [data|e] eqn:HR; [|discriminate].
    destruct (raw_open env data); [|discriminate].
    destruct (raw_unpack env data); [|discriminate].
    destruct (raw_process env data) as [((w, h), bytes)|e] eqn:HP; [|discriminate].
    destruct (from_raw w h bytes) as [img|] eqn:Hb; [|discriminate].
    destruct (encode_jpeg_rgb jpeg_encode img 90); [|discriminate].
    intros H; injection H as <-. simpl. split; [reflexivity|split; [reflexivity|]].
    exists data, w, h, bytes. split; [first [reflexivity|assumption]|split; [first [reflexivity|assumption]|]].
    unfold from_raw in Hb. destruct (_ && _); [|discriminate].
    injection Hb as <-. simpl. split; apply N2Nat.id.
  - unfold process_raw_half_size, read_file.
    destruct (fs_read env file_path) as [data|e] eqn:HR; [|discriminate].
    destruct (raw_open env data); [|discriminate].
    destruct (raw_unpack env data); [|discriminate].
    destruct (raw_process_half_size data) as [((w, h), bytes)|e] eqn:HP; [|discriminate].
    destruct (from_raw w h bytes) as [img|]; [|discriminate].
    destruct (encode_jpeg_rgb jpeg_encode img 85); [|discriminate].
    intros H; injection H as <-. simpl. split; [reflexivity|split; [reflexivity|]].
    exists data, w, h, bytes. split; [first [reflexivity|assumption]|split; [first [reflexivity|assumption]|split; reflexivity]].
Qed.

End PreviewExtra.

(** ** Histograms and the matching step *)

Module HistExtra.
Import Tone.

Lemma nth_list_update {A : Type} (l : list A) (i j : nat) (f : A -> A) (d : A) :
  nth j (list_update l i f) d =
  if (j =? i)%nat && (i <? length l)%nat then f (nth j l d) else nth j l d.
Proof.
  revert i j; induction l as [|x l IH]; intros i j.
  - simpl. destruct (_ && _) eqn:E; [|reflexivity].
    apply andb_true_iff in E. destruct E as (_ & E). apply Nat.ltb_lt in E. simpl in E. lia.
  - destruct i as [|i], j as [|j]; simpl; try reflexivity.
    rewrite IH. reflexivity.
Qed.

Lemma length_bump (h : hist) (x : Byte.byte) : length (bump h x) = length h.
Proof. apply SampleProps.length_list_update. Qed.

Lemma u64_wrap_le (n : N) : (u64_wrap n <= n)%N.
Proof. unfold u64_wrap. apply N.Div0.mod_le. Qed.

Lemma bump_le (h : hist) (x : Byte.byte) (j : nat) :
  (nth j (bump h x) 0 <= nth j h 0 + 1)%N.
Proof.
  unfold bump. rewrite nth_list_update.
  destruct (_ && _); [apply u64_wrap_le|lia].
Qed.

Lemma bump_nth (h : hist) (x v : Byte.byte) :
  length h = 256%nat -> (nth (Byte.to_nat v) h 0 + 1 < 2 ^ 64)%N ->
  (nth (Byte.to_nat v) (bump h x) 0 =
   nth (Byte.to_nat v) h 0 + if (Byte.to_nat x =? Byte.to_nat v)%nat then 1 else 0)%N.
Proof.
  intros Hl Hb. unfold bump. rewrite nth_list_update, Hl.
  pose proof (Byte.to_nat_bounded x) as Bx.
  rewrite Nat.eqb_sym.
  destruct (Byte.to_nat x =? Byte.to_nat v)%nat eqn:E.
  - apply Nat.eqb_eq in E. rewrite <- E.
    replace (Byte.to_nat x <? 256)%nat with true by (symmetry; apply Nat.ltb_lt; lia).
    simpl. unfold u64_wrap. rewrite N.mod_small by (rewrite <- E in Hb; exact Hb). reflexivity.
  - simpl. lia.
Qed.

(** The number of enumerated pixels [(k, p)] with [k] a multiple of [step]
    and channel [c] of [p] equal to [v]. *)
Lemma hist_loop_bins (step : nat) (c0 c1 c2 : rgb -> Byte.byte)
    (Hc0 : c0 = ch0) (Hc1 : c1 = ch1) (Hc2 : c2 = ch2) (px : list rgb) :
  forall i (hr hg hb : hist),
  length hr = 256%nat -> length hg = 256%nat -> length hb = 256%nat ->
  (forall j, nth j hr 0 + N.of_nat (length px) < 2 ^ 64)%N ->
  (forall j, nth j hg 0 + N.of_nat (length px) < 2 ^ 64)%N ->
  (forall j, nth j hb 0 + N.of_nat (length px) < 2 ^ 64)%N ->
  let cnt c v := N.of_nat (length (filter (fun kp =>
                   ((fst kp mod step =? 0) && (Byte.to_nat (c (snd kp)) =? Byte.to_nat v))%nat)
                   (combine (seq i (length px)) px))) in
  let '(hr', hg', hb') := hist_loop step i px (hr, hg, hb) in
  length hr' = 256%nat /\ length hg' = 256%nat /\ length hb' = 256%nat /\
  forall v, (nth (Byte.to_nat v) hr' 0 = nth (Byte.to_nat v) hr 0 + cnt c0 v)%N /\
            (nth (Byte.to_nat v) hg' 0 = nth (Byte.to_nat v) hg 0 + cnt c1 v)%N /\
            (nth (Byte.to_nat v) hb' 0 = nth (Byte.to_nat v) hb 0 + cnt c2 v)%N.
Proof.
  subst c0 c1 c2.
  induction px as [|p rest IH]; intros i hr hg hb Lr Lg Lb Br Bg Bb; cbv zeta.
  - simpl. repeat split; auto; lia.
  - cbn [hist_loop length seq combine filter fst snd].
    destruct (i mod step =? 0)%nat eqn:Hi; cbn [andb].
    + pose proof (IH (S i) (bump hr (ch0 p)) (bump hg (ch1 p)) (bump hb (ch2 p))) as L.
      cbv zeta in L.
      set (res := hist_loop step (S i) rest (bump hr (ch0 p), bump hg (ch1 p), bump hb (ch2 p))) in *.
      clearbody res. destruct res as ((hr', hg'), hb').
      cbv beta iota in L. destruct L as (L1 & L2 & L3 & L4).
      { rewrite length_bump; assumption. }
      { rewrite length_bump; assumption. }
      { rewrite length_bump; assumption. }
      { intros j; pose proof (bump_le hr (ch0 p) j); specialize (Br j); simpl in Br; lia. }
      { intros j; pose proof (bump_le hg (ch1 p) j); specialize (Bg j); simpl in Bg; lia. }
      { intros j; pose proof (bump_le hb (ch2 p) j); specialize (Bb j); simpl in Bb; lia. }
      split; [exact L1|split; [exact L2|split; [exact L3|]]].
      intros v. destruct (L4 v) as (V1 & V2 & V3).
      rewrite V1, V2, V3.
      rewrite !bump_nth by (assumption || (match goal with
        | |- (nth _ ?h 0 + 1 < _)%N => first [specialize (Br (Byte.to_nat v)) | idtac];
                                        first [specialize (Bg (Byte.to_nat v)) | idtac];
                                        first [specialize (Bb (Byte.to_nat v)) | idtac];
                                        simpl in *; lia end)).
      split; [|split];
        (match goal with |- context [(Byte.to_nat ?x =? Byte.to_nat v)%nat] =>
           destruct (Byte.to_nat x =? Byte.to_nat v)%nat end);
        cbn [length]; rewrite ?Nat2N.inj_succ; lia.
    + pose proof (IH (S i) hr hg hb Lr Lg Lb) as L. cbv zeta in L.
      set (res := hist_loop step (S i) rest (hr, hg, hb)) in *.
      clearbody res. destruct res as ((hr', hg'), hb').
      cbv beta iota in L. destruct L as (L1 & L2 & L3 & L4).
      { intros j; specialize (Br j); simpl in Br; lia. }
      { intros j; specialize (Bg j); simpl in Bg; lia. }
      { intros j; specialize (Bb j); simpl in Bb; lia. }
      repeat split; auto; apply L4.
Qed.

(** X16: when the raster's pixel count fits a [u64], bin [v] of each
    channel's histogram is the number of enumerated pixels [(k, p)] (the
    first [width * height] pixels) with [k] a multiple of the sampling
    step and that channel of [p] equal to [v]; each histogram has 256
    bins.  For rasters of at most 500 000 pixels the step is 1, so the bins
    count every pixel. *)
Theorem histogram_bins (img : image rgb) :
  (N.of_nat (width img * height img) < 2 ^ 64)%N ->
  let n := (width img * height img)%nat in
  let step := sample_step n in
  let px := firstn n (pixels img) in
  let count c v := N.of_nat (length (filter (fun kp =>
                     ((fst kp mod step =? 0) && (Byte.to_nat (c (snd kp)) =? Byte.to_nat v))%nat)
                     (combine (seq 0 (length px)) px))) in
  let '(hr, hg, hb) := compute_rgb_histograms_sampled img in
  length hr = 256%nat /\ length hg = 256%nat /\ length hb = 256%nat /\
  (forall v, (nth (Byte.to_nat v) hr 0 = count ch0 v)%N /\
             (nth (Byte.to_nat v) hg 0 = count ch1 v)%N /\
             (nth (Byte.to_nat v) hb 0 = count ch2 v)%N) /\
  ((n <= 500000)%nat -> step = 1%nat).
Proof.
  intros Hn. cbv zeta. unfold compute_rgb_histograms_sampled. cbv zeta.
  assert (Hz : forall j, nth j empty_hist 0%N = 0%N).
  { intros j. unfold empty_hist. destruct (Nat.lt_ge_cases j 256).
    - apply nth_repeat.
    - apply nth_overflow. rewrite repeat_length. exact H. }
  assert (Hb : forall j, (nth j empty_hist 0 +
     N.of_nat (length (firstn (width img * height img) (pixels img))) < 2 ^ 64)%N).
  { intros j. rewrite Hz, length_firstn. simpl.
    eapply N.le_lt_trans; [|exact Hn]. lia. }
  pose proof (hist_loop_bins (sample_step (width img * height img)) ch0 ch1 ch2 eq_refl eq_refl eq_refl
    (firstn (width img * height img) (pixels img)) 0 empty_hist empty_hist empty_hist
    SampleProps.length_empty_hist SampleProps.length_empty_hist SampleProps.length_empty_hist
    Hb Hb Hb) as L.
  cbv zeta in L. revert L.
  destruct (hist_loop _ 0 _ _) as ((hr, hg), hb). intros L.
  cbv beta iota in L. destruct L as (L1 & L2 & L3 & L4).
  split; [exact L1|split; [exact L2|split; [exact L3|split]]].
  - intros v. destruct (L4 v) as (V1 & V2 & V3). rewrite V1, V2, V3, !Hz. repeat split.
  - intros Hs. unfold sample_step.
    replace (500000 <? width img * height img)%nat with false; [reflexivity|].
    symmetry. apply Nat.ltb_ge. exact Hs.
Qed.

Lemma histogram_bins_witness :
  (N.of_nat (width (mk_image 2 1 [(Byte.x01, Byte.x02, Byte.x03); (Byte.x01, Byte.x00, Byte.x00)])
            * height (mk_image 2 1 [(Byte.x01, Byte.x02, Byte.x03); (Byte.x01, Byte.x00, Byte.x00)]))
     < 2 ^ 64)%N /\
  nth 1 (fst (fst (compute_rgb_histograms_sampled
    (mk_image 2 1 [(Byte.x01, Byte.x02, Byte.x03); (Byte.x01, Byte.x00, Byte.x00)])))) 0%N = 2%N.
Proof.
  assert (H : (N.of_nat (width (mk_image 2 1 [(Byte.x01, Byte.x02, Byte.x03); (Byte.x01, Byte.x00, Byte.x00)])
            * height (mk_image 2 1 [(Byte.x01, Byte.x02, Byte.x03); (Byte.x01, Byte.x00, Byte.x00)]))
     < 2 ^ 64)%N) by (vm_compute; reflexivity).
  split; [exact H|].
  pose proof (histogram_bins _ H) as B. cbv zeta in B. revert B.
  destruct (compute_rgb_histograms_sampled _) as ((hr, hg), hb). intros B.
  cbv beta iota in B. destruct B as (_ & _ & _ & B & _).
  exact (proj1 (B Byte.x01)).
Defined.

Lemma lower_bound_le (t : list float) (sp : float) (fuel : nat) : forall low high,
  (low <= high)%nat -> (lower_bound fuel t sp low high <= high)%nat.
Proof.
  induction fuel as [|fuel IH]; intros low high Hle; cbn [lower_bound]; [exact Hle|].
  destruct (low <? high)%nat eqn:Hlt; [|exact Hle].
  apply Nat.ltb_lt in Hlt. cbv zeta.
  pose proof (Nat.div_mod_eq (low + high) 2) as D.
  pose proof (Nat.mod_upper_bound (low + high) 2 ltac:(lia)) as M.
  set (mid := ((low + high) / 2)%nat) in *.
  destruct (at_ t mid <? sp)%float.
  - apply IH. lia.
  - specialize (IH low mid ltac:(lia)). lia.
Qed.

Lemma build_tone_curve_bounded (s t : list float) (v : nat) :
  (nth v (build_tone_curve s t) 0 <= 255)%nat.
Proof.
  destruct (Nat.lt_ge_cases v 256) as [Hv|Hv].
  - rewrite ToneProps.nth_build_tone_curve by exact Hv. unfold tone_entry. cbv zeta.
    pose proof (lower_bound_le t (at_ s v) 256 0 255 ltac:(lia)).
    destruct (_ && _); lia.
  - rewrite nth_overflow; [lia|]. unfold build_tone_curve. rewrite length_map, length_seq. exact Hv.
Qed.

Lemma of_nat_curve (c : list nat) (v : Byte.byte) :
  (nth (Byte.to_nat v) c 0 <= 255)%nat ->
  exists b, Byte.of_nat (nth (Byte.to_nat v) c 0) = Some b /\
            Byte.to_nat b = nth (Byte.to_nat v) c 0.
Proof.
  intros Hb. destruct (Byte.of_nat (nth (Byte.to_nat v) c 0)) as [b|] eqn:E.
  - exists b. split; [reflexivity|]. apply Byte.to_of_nat. exact E.
  - apply Byte.of_nat_None_iff in E. lia.
Qed.

(** X17: [histogram_match] keeps the raster's width, height and pixel
    count, and acts channel by channel: channel [c] of output pixel [k] is
    entry [v] of channel [c]'s tone curve, [v] being channel [c] of input
    pixel [k] (every curve entry fits a byte, so no pixel is ever left
    unmapped). *)
Theorem histogram_match_channelwise (full preview : image rgb) :
  let '(sr, sg, sb) := compute_rgb_histograms_sampled full in
  let '(tr, tg, tb) := compute_rgb_histograms_sampled preview in
  let cr := build_tone_curve (histogram_to_cdf sr) (histogram_to_cdf tr) in
  let cg := build_tone_curve (histogram_to_cdf sg) (histogram_to_cdf tg) in
  let cb := build_tone_curve (histogram_to_cdf sb) (histogram_to_cdf tb) in
  let out := histogram_match full preview in
  width out = width full /\ height out = height full /\
  length (pixels out) = length (pixels full) /\
  forall k p, nth_error (pixels full) k = Some p ->
    exists q, nth_error (pixels out) k = Some q /\
      Byte.to_nat (ch0 q) = nth (Byte.to_nat (ch0 p)) cr 0 /\
      Byte.to_nat (ch1 q) = nth (Byte.to_nat (ch1 p)) cg 0 /\
      Byte.to_nat (ch2 q) = nth (Byte.to_nat (ch2 p)) cb 0.
Proof.
  unfold histogram_match.
  destruct (compute_rgb_histograms_sampled full) as ((sr, sg), sb).
  destruct (compute_rgb_histograms_sampled preview) as ((tr, tg), tb).
  cbv zeta. unfold apply_rgb_curves. cbn [width height pixels].
  split; [reflexivity|split; [reflexivity|split; [apply length_map|]]].
  intros k p Hp. rewrite nth_error_map, Hp. cbn [option_map].
  destruct (of_nat_curve (build_tone_curve (histogram_to_cdf sr) (histogram_to_cdf tr)) (ch0 p)
              (build_tone_curve_bounded _ _ _)) as (r & R1 & R2).
  destruct (of_nat_curve (build_tone_curve (histogram_to_cdf sg) (histogram_to_cdf tg)) (ch1 p)
              (build_tone_curve_bounded _ _ _)) as (g & G1 & G2).
  destruct (of_nat_curve (build_tone_curve (histogram_to_cdf sb) (histogram_to_cdf tb)) (ch2 p)
              (build_tone_curve_bounded _ _ _)) as (b & B1 & B2).
  rewrite R1, G1, B1. exists (r, g, b). split; [reflexivity|].
  split; [exact R2|split; [exact G2|exact B2]].
Qed.

End HistExtra.
